(** * flutter_soloud: the sound registry and the capture relay

    A shallow embedding of the bookkeeping done by [src/player.cpp] and
    [src/capture.cpp].  The audio engine (SoLoud) and the device layer
    (miniaudio) are external: every call into them is recorded in a log
    kept in the state, and every answer they give is an argument of the
    operation that asks for it, so that each statement below holds for
    all answers the engine may give.

    Undefined behaviour of the C++ code (dereferencing an empty
    [std::unique_ptr], writing outside a buffer, signed overflow) is the
    outcome [Undefined]: an operation that reaches it returns nothing. *)

From Stdlib Require Import ZArith Lia.
From Stdlib Require Import Floats.SpecFloat.
From stdpp Require Import base list strings.

Open Scope Z_scope.

(** ** Machine types *)

(** [float] and [double] values, as IEEE 754 data without NaN payloads. *)
Definition float := spec_float.

(** The conversion of a [float] to [double] is exact; the value is put in
    the canonical form of binary64 so that it can be compared there. *)
Definition float_to_double (x : float) : spec_float :=
  match x with
  | S754_finite s m e => binary_round 53 1024 s m e
  | _ => x
  end.

(** The conversion of a [double] to [float] rounds to nearest even. *)
Definition double_to_float (x : spec_float) : float :=
  match x with
  | S754_finite s m e => binary_round 24 128 s m e
  | _ => x
  end.

(** The literal [0.05], a [double]: the binary64 value nearest to 1/20. *)
Definition double_0_05 : spec_float :=
  SFdiv 53 1024 (binary_normalize 53 1024 1 0 false)
                (binary_normalize 53 1024 20 0 false).

Definition INT_MAX : Z := 2 ^ 31 - 1.

(** [(unsigned int) z] *)
Definition to_unsigned_int (z : Z) : Z := z mod 2 ^ 32.

(** [(int) z] for a [z] that is a size: the value modulo [2^32], read as
    two's complement. *)
Definition to_int (z : Z) : Z := (z + 2 ^ 31) mod 2 ^ 32 - 2 ^ 31.

(** ** Outcomes and the state monad of the operations *)

Inductive outcome (S A : Type) : Type :=
| Ret (a : A) (s : S)
| Undefined.
Arguments Ret {S A} a s.
Arguments Undefined {S A}.

Definition M (S A : Type) : Type := S -> outcome S A.

Definition ret {S A} (a : A) : M S A := fun s => Ret a s.

Definition bind {S A B} (m : M S A) (k : A -> M S B) : M S B :=
  fun s => match m s with
           | Ret a s' => k a s'
           | Undefined => Undefined
           end.

Definition gets {S A} (f : S -> A) : M S A := fun s => Ret (f s) s.

Definition modify {S} (f : S -> S) : M S unit := fun s => Ret tt (f s).

(** A step that is defined only when [o] holds a value. *)
Definition defined {S A} (o : option A) : M S A :=
  fun s => match o with
           | Some a => Ret a s
           | None => Undefined
           end.

Declare Scope cpp_scope.
Delimit Scope cpp_scope with cpp.
Notation "x <- m ;; k" := (bind m (fun x => k))
  (at level 100, m at level 99, right associativity) : cpp_scope.
Notation "m ;;; k" := (bind m (fun _ => k))
  (at level 100, right associativity) : cpp_scope.
Open Scope cpp_scope.

(** * The sound registry ([src/player.cpp]) *)

Module Player.

(** [SoLoud::result], [SoLoud::handle] and [PlayerErrors] are unsigned
    integers and an enumeration; [(PlayerErrors)result] keeps the number. *)
Abbreviation SoLoud_result := Z (only parsing).
Abbreviation SoLoud_handle := Z (only parsing).
Abbreviation PlayerErrors := Z (only parsing).

(** What the listing takes from headers that are not part of it: the hash
    of the C++ library, the engine's success code ([soloud.h]), the
    codes of [PlayerErrors] the load functions name ([enums.h]) and the
    frequency a [Basicwave] is built with ([synth/basic_wave.h]). *)
Class Headers := {
  std_hash : string -> Z;
  SO_NO_ERROR : SoLoud_result;
  noError : PlayerErrors;
  backendNotInited : PlayerErrors;
  fileAlreadyLoaded : PlayerErrors;
  Basicwave_freq : float
}.

Inductive SoundType := TYPE_WAV | TYPE_SYNTH.

(** Modelled from the spec: [synth/basic_wave.h] is missing.  The
    generator parameters of a synthesized waveform, which the setters
    "mutate in place". *)
Record Basicwave := mkBasicwave {
  mWaveform : Z;
  mSuperwave : bool;
  mDetune : float;
  mScale : float;
  mFreq : float
}.

(** Modelled from the spec: the setters of [Basicwave], also in
    [synth/basic_wave.h]; each replaces one generator parameter. *)
Definition setScale (x : float) (b : Basicwave) : Basicwave :=
  mkBasicwave (mWaveform b) (mSuperwave b) (mDetune b) x (mFreq b).
Definition setDetune (x : float) (b : Basicwave) : Basicwave :=
  mkBasicwave (mWaveform b) (mSuperwave b) x (mScale b) (mFreq b).
Definition setWaveform_ (x : Z) (b : Basicwave) : Basicwave :=
  mkBasicwave x (mSuperwave b) (mDetune b) (mScale b) (mFreq b).
Definition setFreq (x : float) (b : Basicwave) : Basicwave :=
  mkBasicwave (mWaveform b) (mSuperwave b) (mDetune b) (mScale b) x.
Definition setSuperWave (x : bool) (b : Basicwave) : Basicwave :=
  mkBasicwave (mWaveform b) x (mDetune b) (mScale b) (mFreq b).

(** The object behind [std::unique_ptr<SoLoud::AudioSource>]: a
    [SoLoud::Wav], whose samples live in the engine, or a [Basicwave]. *)
Inductive AudioSource :=
| Wav
| Synth (b : Basicwave).

(** [ActiveSound], as the listing uses its fields. *)
Record ActiveSound := mkActiveSound {
  sound : option AudioSource;
  completeFileName : string;
  soundHash : Z;
  handle : list SoLoud_handle;
  soundType : SoundType
}.

(** The calls made into the engine, in the order they are made. *)
Inductive SoloudCall :=
| soloud_init
| soloud_deinit
| Wav_load (fileName : string)
| Wav_loadRawWav (buffer : list float) (length : Z)
| soloud_play (src : AudioSource) (volume pan : float) (paused : bool) (bus : Z)
| soloud_stop (h : SoLoud_handle)
| soloud_stopAll
| soloud_setRelativePlaySpeed (h : SoLoud_handle) (speed : float).

(** [Player]: a slot of [sounds] is a [std::unique_ptr<ActiveSound>],
    [None] when it is empty. *)
Record Player := mkPlayer {
  mInited : bool;
  sounds : list (option ActiveSound);
  soloud : list SoloudCall
}.

(** [Player::Player()] *)
Definition new : Player := mkPlayer false [] [].

Definition set_mInited (b : bool) (p : Player) : Player :=
  mkPlayer b (sounds p) (soloud p).
Definition set_sounds (v : list (option ActiveSound)) (p : Player) : Player :=
  mkPlayer (mInited p) v (soloud p).
Definition call (c : SoloudCall) : M Player unit :=
  modify (fun p => mkPlayer (mInited p) (sounds p) (soloud p ++ [c])).

(** An iterator into [sounds]: a position and the sound there, or [end()]. *)
Inductive iterator :=
| It (i : nat) (f : ActiveSound)
| End.

(** [std::find_if(first, last, pred)], where [pred] reads a field through
    the pointer in each slot: nothing is returned when it meets an empty
    slot before a match. *)
Fixpoint find_if (pred : ActiveSound -> bool) (v : list (option ActiveSound))
  : option iterator :=
  match v with
  | [] => Some End
  | None :: _ => None
  | Some f :: v' =>
      if pred f then Some (It 0 f)
      else match find_if pred v' with
           | Some (It i g) => Some (It (S i) g)
           | r => r
           end
  end.

(** The lambda [f->soundHash == hash]. *)
Definition hash_is (hash : Z) (f : ActiveSound) : bool := soundHash f =? hash.

(** [std::find_if(sounds.begin(), sounds.end(), ...)] on the registry. *)
Definition find_sound (hash : Z) : M Player iterator :=
  v <- gets sounds ;; defined (find_if (hash_is hash) v).

(** The number of slots that hold a sound with the hash [hash]. *)
Definition count_hash (hash : Z) (v : list (option ActiveSound)) : nat :=
  length (List.filter (fun o => match o with
                                | Some f => hash_is hash f
                                | None => false
                                end) v).

Section WithHeaders.
Context `{Headers}.

(** [newHash] for a file name. *)
Definition hash_of (name : string) : Z := to_unsigned_int (std_hash name).

(** [Player::dispose] *)
Definition dispose : M Player unit :=
  (call soloud_deinit ;;; modify (set_mInited false) ;;;
   modify (set_sounds [])).

(** [Player::init], for the answer [r] of [soloud.init]. *)
Definition init (r : SoLoud_result) : M Player PlayerErrors :=
  inited <- gets mInited ;;
  (if inited : bool then dispose else ret tt) ;;;
  call soloud_init ;;;
  if r =? SO_NO_ERROR
  then modify (set_mInited true) ;;; ret r
  else ret backendNotInited.

(** [Player::getSoundsCount] *)
Definition getSoundsCount : M Player Z :=
  (v <- gets sounds ;; ret (to_int (Z.of_nat (length v)))).

(** The [ActiveSound] that [loadFile] and [loadFromMemory] push and fill
    in: a [SoLoud::Wav] of type [TYPE_WAV] with no handle yet. *)
Definition new_wav (name : string) (newHash : Z) : ActiveSound :=
  mkActiveSound (Some Wav) name newHash [] TYPE_WAV.

(** The part of [loadFile] and [loadFromMemory] after the lookup: the new
    [ActiveSound] is pushed, the engine decodes ([c] is the call, [r] its
    answer), and a second, empty slot is pushed when the answer is an
    error. *)
Definition push_wav (name : string) (newHash : Z) (c : SoloudCall)
    (r : SoLoud_result) : M Player (PlayerErrors * Z) :=
  (v <- gets sounds ;;
   modify (set_sounds (v ++ [Some (new_wav name newHash)])) ;;;
   call c ;;;
   (if negb (r =? SO_NO_ERROR)
    then v' <- gets sounds ;; modify (set_sounds (v' ++ [None]))
    else ret tt) ;;;
   ret (r, newHash)).

(** The player [push_wav] leaves, written out (see [push_wav_eq]). *)
Definition pushed (name : string) (newHash : Z) (c : SoloudCall)
    (r : SoLoud_result) (p : Player) : Player :=
  mkPlayer (mInited p)
    ((sounds p ++ [Some (new_wav name newHash)])
       ++ (if negb (r =? SO_NO_ERROR) then [None] else []))
    (soloud p ++ [c]).

(** [Player::loadFile]: [hash] is what the caller's variable holds before
    the call, [r] the answer of [SoLoud::Wav::load]; the result is the
    error code and what the variable holds afterwards. *)
Definition loadFile (completeFileName : string) (hash : Z) (r : SoLoud_result)
  : M Player (PlayerErrors * Z) :=
  (inited <- gets mInited ;;
   if negb inited then ret (backendNotInited, hash)
   else
     let newHash := hash_of completeFileName in
     s <- find_sound newHash ;;
     match s with
     | It _ _ => ret (fileAlreadyLoaded, newHash)
     | End => push_wav completeFileName newHash (Wav_load completeFileName) r
     end).

(** [newHash] in [loadFromMemory]: the hash of a string literal. *)
Definition memory_hash : Z := hash_of "memory-mapped-sample".

(** [Player::loadFromMemory]: [buffer] and [length] are passed on to
    [SoLoud::Wav::loadRawWav], whose answer is [r]. *)
Definition loadFromMemory (buffer : list float) (hash : Z) (length : Z)
    (r : SoLoud_result) : M Player (PlayerErrors * Z) :=
  (inited <- gets mInited ;;
   if negb inited then ret (backendNotInited, hash)
   else
     let newHash := memory_hash in
     s <- find_sound newHash ;;
     match s with
     | It _ _ => ret (fileAlreadyLoaded, newHash)
     | End => push_wav "memory-mapped-sample" newHash
                (Wav_loadRawWav buffer length) r
     end).

(** [Player::loadWaveform]: [rnd] is the number drawn from the
    distribution, an [unsigned int]. *)
Definition loadWaveform (waveform : Z) (superWave : bool)
    (scale detune : float) (hash : Z) (rnd : Z)
  : M Player (PlayerErrors * Z) :=
  (inited <- gets mInited ;;
   if negb inited then ret (backendNotInited, hash)
   else
     let hash := to_unsigned_int rnd in
     v <- gets sounds ;;
     modify (set_sounds (v ++ [Some (mkActiveSound
       (Some (Synth (mkBasicwave waveform superWave detune scale
                       Basicwave_freq)))
       "" hash [] TYPE_SYNTH)])) ;;;
     ret (noError, hash)).

(** The sound [f] after a setter changed the object [f->sound] points to. *)
Definition set_source (a : AudioSource) (f : ActiveSound) : ActiveSound :=
  mkActiveSound (Some a) (completeFileName f) (soundHash f) (handle f)
    (soundType f).

(** A run of [loadFromMemory] calls, each with its buffer, the content of
    the caller's variable, its length and the engine's answer; the results
    are collected in order. *)
Fixpoint loadFromMemory_all (calls : list (list float * Z * Z * SoLoud_result))
  : M Player (list (PlayerErrors * Z)) :=
  match calls with
  | [] => ret []
  | (buffer, hash, len, r) :: calls' =>
      x <- loadFromMemory buffer hash len r ;;
      xs <- loadFromMemory_all calls' ;;
      ret (x :: xs)
  end.

(** The body the five waveform setters share: the lookup, the test
    [s == sounds.end() || s->get()->soundType != TYPE_SYNTH], and the
    setter [set] of [Basicwave] called through [static_cast<Basicwave*>]
    (undefined when the pointer is not to a [Basicwave]). *)
Definition set_synth (soundHash : Z) (set : Basicwave -> Basicwave)
  : M Player unit :=
  s <- find_sound soundHash ;;
  match s with
  | End => ret tt
  | It i f =>
      match soundType f with
      | TYPE_SYNTH =>
          b <- defined (match sound f with
                        | Some (Synth b) => Some b
                        | _ => None
                        end) ;;
          v <- gets sounds ;;
          modify (set_sounds (<[i := Some (set_source (Synth (set b)) f)]> v))
      | TYPE_WAV => ret tt
      end
  end.

(** The registry after a setter replaced the generator of the sound in
    slot [i]; every other slot, every handle and the engine log are as
    before. *)
Definition with_generator (i : nat) (f : ActiveSound) (b : Basicwave)
    (p : Player) : Player :=
  mkPlayer (mInited p) (<[i := Some (set_source (Synth b) f)]> (sounds p))
    (soloud p).

(** [Player::setWaveformScale] *)
Definition setWaveformScale (soundHash : Z) (newScale : float) :=
  set_synth soundHash (setScale newScale).

(** [Player::setWaveformDetune] *)
Definition setWaveformDetune (soundHash : Z) (newDetune : float) :=
  set_synth soundHash (setDetune newDetune).

(** [Player::setWaveform] *)
Definition setWaveform (soundHash : Z) (newWaveform : Z) :=
  set_synth soundHash (setWaveform_ newWaveform).

(** [Player::setWaveformFreq] *)
Definition setWaveformFreq (soundHash : Z) (newFreq : float) :=
  set_synth soundHash (setFreq newFreq).

(** [Player::setWaveformSuperwave] *)
Definition setWaveformSuperwave (soundHash : Z) (superwave : bool) :=
  set_synth soundHash (setSuperWave superwave).

(** What [setRelativePlaySpeed] passes on: [speed < 0.05] compares in
    [double], [speed = 0.05] stores the literal as a [float]. *)
Definition clamp_speed (speed : float) : float :=
  if SFltb (float_to_double speed) double_0_05
  then double_to_float double_0_05
  else speed.

(** [Player::setRelativePlaySpeed] *)
Definition setRelativePlaySpeed (h : SoLoud_handle) (speed : float)
  : M Player unit :=
  call (soloud_setRelativePlaySpeed h (clamp_speed speed)).

(** [sound->handle.emplace_back(newHandle)] *)
Definition add_handle (h : SoLoud_handle) (f : ActiveSound) : ActiveSound :=
  mkActiveSound (sound f) (completeFileName f) (soundHash f)
    (handle f ++ [h]) (soundType f).

(** [Player::play], for the handle [newHandle] that [soloud.play] gives. *)
Definition play (soundHash : Z) (volume pan : float) (paused : bool)
    (newHandle : SoLoud_handle) : M Player SoLoud_handle :=
  s <- find_sound soundHash ;;
  match s with
  | End => ret 0
  | It i f =>
      src <- defined (sound f) ;;
      call (soloud_play src volume pan paused 0) ;;;
      v <- gets sounds ;;
      modify (set_sounds (<[i := Some (add_handle newHandle f)]> v)) ;;;
      ret newHandle
  end.

(** The inner loop of [findByHandle]: the first index of [h]. *)
Fixpoint index_of (h : SoLoud_handle) (l : list SoLoud_handle) : option nat :=
  match l with
  | [] => None
  | x :: l' => if x =? h then Some 0%nat else S <$> index_of h l'
  end.

(** What [findByHandle] returns: the owning sound (its position in
    [sounds] and the object) with [*handleId], or [nullptr]. *)
Inductive owner :=
| Owner (i : nat) (f : ActiveSound) (handleId : nat)
| Nullptr.

(** The outer loop of [findByHandle]; [sounds[i].get()->handle] reads
    through the pointer in slot [i]. *)
Fixpoint find_owner (h : SoLoud_handle) (v : list (option ActiveSound))
  : option owner :=
  match v with
  | [] => Some Nullptr
  | None :: _ => None
  | Some f :: v' =>
      match index_of h (handle f) with
      | Some index => Some (Owner 0 f index)
      | None => match find_owner h v' with
                | Some (Owner i g index) => Some (Owner (S i) g index)
                | r => r
                end
      end
  end.

(** [Player::findByHandle] *)
Definition findByHandle (h : SoLoud_handle) : M Player owner :=
  v <- gets sounds ;; defined (find_owner h v).

(** [std::remove_if] on a vector of handles: the vector afterwards and
    the position returned.  The elements kept are moved to the front in
    order; a handle is copied by a move, so the slots from the returned
    position on hold what they held before. *)
Definition remove_if (pred : SoLoud_handle -> bool) (l : list SoLoud_handle)
  : list SoLoud_handle * nat :=
  let kept := List.filter (fun x => negb (pred x)) l in
  (kept ++ drop (length kept) l, length kept).

(** [vector::erase(pos)] with one iterator: removes the element at [pos],
    which must not be [end()]. *)
Definition erase (l : list SoLoud_handle) (pos : nat)
  : option (list SoLoud_handle) :=
  if (pos <? length l)%nat then Some (take pos l ++ drop (S pos) l) else None.

(** [v.erase(std::remove_if(v.begin(), v.end(), pred))] *)
Definition erase_remove_if (pred : SoLoud_handle -> bool)
    (l : list SoLoud_handle) : option (list SoLoud_handle) :=
  let '(l', pos) := remove_if pred l in erase l' pos.

Definition set_handles (l : list SoLoud_handle) (f : ActiveSound)
  : ActiveSound :=
  mkActiveSound (sound f) (completeFileName f) (soundHash f) l (soundType f).

(** The lambda [f == handle]. *)
Definition is_handle (h : SoLoud_handle) (x : SoLoud_handle) : bool := x =? h.

(** The handles of [l] other than [h], in order. *)
Definition others (h : SoLoud_handle) (l : list SoLoud_handle)
  : list SoLoud_handle :=
  List.filter (fun x => negb (is_handle h x)) l.

(** [Player::stop] *)
Definition stop (h : SoLoud_handle) : M Player unit :=
  r <- findByHandle h ;;
  match r with
  | Nullptr => ret tt
  | Owner i f _ =>
      call (soloud_stop h) ;;;
      l <- defined (erase_remove_if (is_handle h) (handle f)) ;;
      v <- gets sounds ;;
      modify (set_sounds (<[i := Some (set_handles l f)]> v))
  end.

(** [Player::disposeAllSound] *)
Definition disposeAllSound : M Player unit :=
  call soloud_stopAll ;;; modify (set_sounds []).

End WithHeaders.

(** Headers for running the registry on concrete inputs: strings are
    hashed by their length and the codes are small numbers.  No general
    statement depends on these choices. *)
Definition example_headers : Headers :=
  {| std_hash := fun s => Z.of_nat (String.length s);
     SO_NO_ERROR := 0;
     noError := 0;
     backendNotInited := 9;
     fileAlreadyLoaded := 4;
     Basicwave_freq := S754_zero false |}.

(** An initialized player with an empty registry, and the sound that
    loading "a.wav" puts there. *)
Definition example_player : Player := mkPlayer true [] [soloud_init].
Definition example_sound : ActiveSound :=
  mkActiveSound (Some Wav) "a.wav" 5 [] TYPE_WAV.
Definition example_loaded : Player :=
  mkPlayer true [Some example_sound] [soloud_init; Wav_load "a.wav"].

(** A player that was initialized and then asked to load a file the
    engine could not decode (answer [2]). *)
Definition after_failed_load : outcome Player (PlayerErrors * Z) :=
  (@init example_headers 0 ;;; @loadFile example_headers "missing.wav" 0 2) new.

End Player.

(** * The capture relay ([src/capture.cpp]) *)

Module Capture.

Definition CAPTURE_BUFFER_SIZE : Z := 256.

(** The error codes [capture.cpp] returns ([enums.h]). *)
Inductive CaptureErrors :=
| capture_noError
| capture_init_failed
| capture_not_inited
| failed_to_start_device.

(** [ma_result]: success or an error code. *)
Inductive ma_result :=
| MA_SUCCESS
| MA_ERROR (code : Z).

(** The fields [Capture::init] sets in [deviceConfig]; the format is
    [ma_format_f32] and the callback is [data_callback]. *)
Record ma_device_config := mk_config {
  periodSizeInFrames : Z;
  capture_pDeviceID : option Z;
  capture_channels : Z;
  sampleRate : Z
}.

(** The calls made into the device layer, in the order they are made. *)
Inductive MaCall :=
| ma_device_init (config : ma_device_config)
| ma_device_uninit
| ma_device_start.

(** The globals of [capture.cpp] and the fields of [Capture].
    [capturedBuffer] is an array of [CAPTURE_BUFFER_SIZE] floats;
    [bigBuffer] points to the caller's buffer, whose length is its
    capacity, or is null ([None]). *)
Record Capture := mkCapture {
  currentFrame : Z;
  capturedBuffer : list float;
  bigBuffer : option (list float);
  mInited : bool;
  device : list MaCall
}.

(** The state when the program starts, before [Capture::init]. *)
Definition new : Capture :=
  mkCapture 0 (replicate (Z.to_nat CAPTURE_BUFFER_SIZE) (S754_zero false))
    None false [].

Definition set_currentFrame (n : Z) (c : Capture) : Capture :=
  mkCapture n (capturedBuffer c) (bigBuffer c) (mInited c) (device c).
Definition set_capturedBuffer (b : list float) (c : Capture) : Capture :=
  mkCapture (currentFrame c) b (bigBuffer c) (mInited c) (device c).
Definition set_bigBuffer (b : option (list float)) (c : Capture) : Capture :=
  mkCapture (currentFrame c) (capturedBuffer c) b (mInited c) (device c).
Definition set_mInited (b : bool) (c : Capture) : Capture :=
  mkCapture (currentFrame c) (capturedBuffer c) (bigBuffer c) b (device c).
Definition call (m : MaCall) : M Capture unit :=
  modify (fun c => mkCapture (currentFrame c) (capturedBuffer c)
                     (bigBuffer c) (mInited c) (device c ++ [m])).

(** [int] arithmetic: the result when it is an [int], nothing on overflow. *)
Definition int_op (r : Z) : option Z :=
  if (- 2 ^ 31 <=? r) && (r <=? INT_MAX) then Some r else None.

(** The source of a [memcpy] of [n] floats: defined when [src] holds them. *)
Definition read (src : list float) (n : Z) : option (list float) :=
  if n <=? Z.of_nat (length src) then Some (take (Z.to_nat n) src) else None.

(** The destination [&dst[off]] of a [memcpy] of [block]: defined when
    [dst] has room for the block from [off] on. *)
Definition write (dst : list float) (off : Z) (block : list float)
  : option (list float) :=
  if (0 <=? off) && (off + Z.of_nat (length block) <=? Z.of_nat (length dst))
  then Some (take (Z.to_nat off) dst ++ block
             ++ drop (Z.to_nat off + length block) dst)
  else None.

(** [data_callback]: [pInput] is the block the device layer delivers.
    The first [memcpy] fills all of [capturedBuffer], the second one
    writes at [&bigBuffer[CAPTURE_BUFFER_SIZE * currentFrame]]. *)
Definition data_callback (pInput : list float) (frameCount : Z)
  : M Capture unit :=
  block <- defined (read pInput CAPTURE_BUFFER_SIZE) ;;
  modify (set_capturedBuffer block) ;;;
  p <- gets bigBuffer ;;
  big <- defined p ;;
  n <- gets currentFrame ;;
  off <- defined (int_op (CAPTURE_BUFFER_SIZE * n)) ;;
  big' <- defined (write big off block) ;;
  modify (set_bigBuffer (Some big')) ;;;
  n' <- defined (int_op (n + 1)) ;;
  modify (set_currentFrame n').


(** The device layer calling [data_callback] once per delivered block. *)
Fixpoint deliver (frames : list (list float)) : M Capture unit :=
  match frames with
  | [] => ret tt
  | f :: frames' => data_callback f CAPTURE_BUFFER_SIZE ;;; deliver frames'
  end.

(** [Capture::initializeBuffer] *)
Definition initializeBuffer (bufferFromDart : option (list float))
  : M Capture unit :=
  modify (set_bigBuffer bufferFromDart).

(** [Capture::init], for the answer [r] of [ma_device_init]. *)
Definition init (deviceID : Z) (bufferFromDart : option (list float))
    (r : ma_result) : M Capture CaptureErrors :=
  inited <- gets mInited ;;
  if inited : bool then ret capture_init_failed
  else
    call (ma_device_init
            (mk_config CAPTURE_BUFFER_SIZE
               (if deviceID =? -1 then None else Some deviceID) 1 44100)) ;;;
    match r with
    | MA_SUCCESS =>
        initializeBuffer bufferFromDart ;;;
        modify (set_mInited true) ;;;
        ret capture_noError
    | MA_ERROR _ => ret capture_init_failed
    end.

(** [Capture::dispose] *)
Definition dispose : M Capture unit :=
  modify (set_mInited false) ;;; call ma_device_uninit.

(** [Capture::isInited] *)
Definition isInited : M Capture bool := gets mInited.

(** [Capture::startCapture], for the answer [r] of [ma_device_start]. *)
Definition startCapture (r : ma_result) : M Capture CaptureErrors :=
  inited <- gets mInited ;;
  if negb inited then ret capture_not_inited
  else
    call ma_device_start ;;;
    match r with
    | MA_SUCCESS => ret capture_noError
    | MA_ERROR _ => call ma_device_uninit ;;; ret failed_to_start_device
    end.

(** [Capture::stopCapture] *)
Definition stopCapture : M Capture CaptureErrors :=
  inited <- gets mInited ;;
  if negb inited then ret capture_not_inited
  else
    call ma_device_uninit ;;;
    modify (set_mInited false) ;;;
    ret capture_noError.

(** A capture that was initialized with a buffer of 600 samples, and two
    frames to deliver, for running the relay on concrete inputs. *)
Definition example_capture : Capture :=
  mkCapture 0 (replicate 256 (S754_zero false))
    (Some (replicate 600 (S754_zero false))) true
    [ma_device_init (mk_config 256 None 1 44100)].
Definition example_frame1 : list float := replicate 256 (S754_infinity false).
Definition example_frame2 : list float := replicate 256 (S754_infinity true).

End Capture.

(** * The rest of the registry ([src/player.cpp]) *)

Module PlayerExt.
Import Player.

(** What a value-initialized [ActiveSound] holds in the two fields that
    [textToSpeech] leaves alone ([player.h]). *)
Class ActiveSoundDefaults := {
  soundHash0 : Z;
  soundType0 : SoundType
}.

(** The calls into the engine that the operations below make and
    [SoloudCall] does not name. *)
Inductive Call :=
| AudioSource_stop (src : AudioSource)
| soloud_play3d (src : AudioSource)
    (aPosX aPosY aPosZ aVelX aVelY aVelZ aVolume : float) (aPaused : bool)
    (aBus : Z)
| Speech_setText (text : string)
| soloud_play_speech
| Wav_getLength
| soloud_seek (h : SoLoud_handle) (time : float)
| soloud_set3dListenerAt (aAtX aAtY aAtZ : float)
| soloud_set3dListenerUp (aUpX aUpY aUpZ : float).

(** The player together with the log of these calls.  Each entry carries
    the number of calls [soloud] held when it was made, so that the two
    logs together give the order of all calls. *)
Record Traced := mkTraced {
  player : Player;
  further : list (nat * Call)
}.

(** The state of a program that has only built its [Player]. *)
Definition start : Traced := mkTraced new [].

(** An operation of the first part, run on the player. *)
Definition on_player {A} (m : M Player A) : M Traced A :=
  fun x => match m (player x) with
           | Ret a p => Ret a (mkTraced p (further x))
           | Undefined => Undefined
           end.

Definition call (c : Call) : M Traced unit :=
  modify (fun x => mkTraced (player x)
                     (further x ++ [(length (soloud (player x)), c)])).

(** What a slot holds after [std::remove_if] left it behind: the sound
    when it matched (it was neither moved nor assigned to), nothing when
    it did not (its sound was moved to the front). *)
Definition left_behind (pred : ActiveSound -> bool) (o : option ActiveSound)
  : option ActiveSound :=
  match o with
  | Some f => if pred f then Some f else None
  | None => None
  end.

(** The slots whose sound does not match, in order. *)
Definition kept (pred : ActiveSound -> bool) (v : list (option ActiveSound))
  : list (option ActiveSound) :=
  List.filter (fun o => match o with
                        | Some f => negb (pred f)
                        | None => false
                        end) v.

(** [std::remove_if] on [sounds]: the vector afterwards and the position
    returned.  The predicate reads through the pointer in every slot, so
    nothing is returned when a slot is empty.  The sounds kept are moved
    to the front in order. *)
Definition remove_if (pred : ActiveSound -> bool)
    (v : list (option ActiveSound))
  : option (list (option ActiveSound) * nat) :=
  if forallb (fun o => match o with Some _ => true | None => false end) v
  then Some (kept pred v ++ List.map (left_behind pred)
                              (drop (length (kept pred v)) v),
             length (kept pred v))
  else None.

(** [vector::erase(pos)] with one iterator, which must not be [end()]. *)
Definition erase (v : list (option ActiveSound)) (pos : nat)
  : option (list (option ActiveSound)) :=
  if (pos <? length v)%nat then Some (take pos v ++ drop (S pos) v) else None.

(** [sounds.erase(std::remove_if(sounds.begin(), sounds.end(), pred))] *)
Definition erase_remove_if (pred : ActiveSound -> bool)
    (v : list (option ActiveSound)) : option (list (option ActiveSound)) :=
  match remove_if pred v with
  | Some (v', pos) => erase v' pos
  | None => None
  end.

(** Every slot holds a sound. *)
Definition full (v : list (option ActiveSound)) : Prop :=
  Forall (fun o => o <> None) v.

(** [soundType] names the class of the object [sound] points to. *)
Definition typed (o : option ActiveSound) : Prop :=
  match o with
  | Some f =>
      match sound f with
      | Some Wav => soundType f = TYPE_WAV
      | Some (Synth _) => soundType f = TYPE_SYNTH
      | None => True
      end
  | None => True
  end.

(** A player that is not initialized holds no sound, and every sound is
    [typed]. *)
Definition consistent (p : Player) : Prop :=
  (mInited p = false -> sounds p = []) /\ Forall typed (sounds p).

(** The entry of the log is a call of [soloud.set3dListenerUp]. *)
Definition sets_up (e : nat * Call) : bool :=
  match snd e with
  | soloud_set3dListenerUp _ _ _ => true
  | _ => false
  end.

(** The operation [m] keeps the property [P] of all entries of the log. *)
Definition keeps_log {A} (P : nat * Call -> Prop) (m : M Traced A) : Prop :=
  forall x a x',
    m x = Ret a x' -> Forall P (further x) -> Forall P (further x').

(** What a caller sees of an outcome: the value returned and the
    registry. *)
Definition seen {S A} (registry : S -> list (option ActiveSound))
    (o : outcome S A) : option (A * list (option ActiveSound)) :=
  match o with
  | Ret a s => Some (a, registry s)
  | Undefined => None
  end.

Section WithHeaders.
Context `{Headers} `{ActiveSoundDefaults}.

(** [Player::isInited] *)
Definition isInited : M Traced bool := on_player (gets mInited).

(** [Player::disposeSound] *)
Definition disposeSound (soundHash : Z) : M Traced unit :=
  s <- on_player (find_sound soundHash) ;;
  match s with
  | End => ret tt
  | It _ f =>
      src <- defined (sound f) ;;
      call (AudioSource_stop src) ;;;
      v <- on_player (gets sounds) ;;
      v' <- defined (erase_remove_if (hash_is soundHash) v) ;;
      on_player (modify (set_sounds v'))
  end.

(** The [ActiveSound] that [textToSpeech] pushes: only the file name is
    set, and the handle once the speech plays. *)
Definition new_speech (l : list SoLoud_handle) : ActiveSound :=
  mkActiveSound None "" soundHash0 l soundType0.

(** [Player::textToSpeech]: [handle] is what the caller's variable holds
    before the call, [r] the answer of [speech.setText] and [newHandle]
    the one of [soloud.play(speech)]; the result is the error code and
    what the variable holds afterwards. *)
Definition textToSpeech (text : string) (handle : Z) (r : SoLoud_result)
    (newHandle : SoLoud_handle) : M Traced (PlayerErrors * Z) :=
  inited <- on_player (gets mInited) ;;
  if negb inited then ret (backendNotInited, handle)
  else
    v <- on_player (gets sounds) ;;
    on_player (modify (set_sounds (v ++ [Some (new_speech [])]))) ;;;
    call (Speech_setText text) ;;;
    if r =? SO_NO_ERROR
    then
      call soloud_play_speech ;;;
      on_player (modify (set_sounds (v ++ [Some (new_speech [newHandle])]))) ;;;
      ret (r, newHandle)
    else
      on_player (modify (set_sounds (v ++ [Some (new_speech []); None]))) ;;;
      ret (r, handle).

(** [Player::play3d], for the handle [newHandle] that [soloud.play3d]
    gives. *)
Definition play3d (soundHash : Z)
    (aPosX aPosY aPosZ aVelX aVelY aVelZ aVolume : float) (aPaused : bool)
    (aBus : Z) (newHandle : SoLoud_handle) : M Traced SoLoud_handle :=
  s <- on_player (find_sound soundHash) ;;
  match s with
  | End => ret 0
  | It i f =>
      src <- defined (sound f) ;;
      call (soloud_play3d src aPosX aPosY aPosZ aVelX aVelY aVelZ aVolume
              aPaused aBus) ;;;
      v <- on_player (gets sounds) ;;
      on_player (modify (set_sounds (<[i := Some (add_handle newHandle f)]> v))) ;;;
      ret newHandle
  end.

(** [Player::getLength], for the answer [len] of [SoLoud::Wav::getLength];
    the [static_cast<SoLoud::Wav*>] is undefined when the pointer is not
    to a [SoLoud::Wav]. *)
Definition getLength (soundHash : Z) (len : spec_float)
  : M Traced spec_float :=
  s <- on_player (find_sound soundHash) ;;
  match s with
  | End => ret (S754_zero false)
  | It _ f =>
      match soundType f with
      | TYPE_WAV =>
          defined (match sound f with
                   | Some Wav => Some tt
                   | _ => None
                   end) ;;;
          call Wav_getLength ;;;
          ret len
      | TYPE_SYNTH => ret (S754_zero false)
      end
  end.

(** [Player::seek], for the answer [r] of [soloud.seek]. *)
Definition seek (h : SoLoud_handle) (time : float) (r : SoLoud_result)
  : M Traced PlayerErrors :=
  inited <- on_player (gets mInited) ;;
  if negb inited then ret backendNotInited
  else call (soloud_seek h time) ;;; ret r.

(** [Player::set3dListenerAt] *)
Definition set3dListenerAt (aAtX aAtY aAtZ : float) : M Traced unit :=
  call (soloud_set3dListenerAt aAtX aAtY aAtZ).

(** [Player::set3dListenerUp], which calls [soloud.set3dListenerAt]. *)
Definition set3dListenerUp (aUpX aUpY aUpZ : float) : M Traced unit :=
  call (soloud_set3dListenerAt aUpX aUpY aUpZ).

(** A call of one operation of [Player], with the answers the engine
    gives during it. *)
Inductive request :=
| do_init (r : SoLoud_result)
| do_dispose
| do_loadFile (completeFileName : string) (hash : Z) (r : SoLoud_result)
| do_loadFromMemory (buffer : list float) (hash length : Z)
    (r : SoLoud_result)
| do_loadWaveform (waveform : Z) (superWave : bool) (scale detune : float)
    (hash rnd : Z)
| do_setWaveformScale (soundHash : Z) (newScale : float)
| do_setWaveformDetune (soundHash : Z) (newDetune : float)
| do_setWaveform (soundHash : Z) (newWaveform : Z)
| do_setWaveformFreq (soundHash : Z) (newFreq : float)
| do_setWaveformSuperwave (soundHash : Z) (superwave : bool)
| do_setRelativePlaySpeed (h : SoLoud_handle) (speed : float)
| do_play (soundHash : Z) (volume pan : float) (paused : bool)
    (newHandle : SoLoud_handle)
| do_play3d (soundHash : Z)
    (aPosX aPosY aPosZ aVelX aVelY aVelZ aVolume : float) (aPaused : bool)
    (aBus : Z) (newHandle : SoLoud_handle)
| do_stop (h : SoLoud_handle)
| do_disposeSound (soundHash : Z)
| do_disposeAllSound
| do_textToSpeech (text : string) (handle : Z) (r : SoLoud_result)
    (newHandle : SoLoud_handle)
| do_getLength (soundHash : Z) (len : spec_float)
| do_seek (h : SoLoud_handle) (time : float) (r : SoLoud_result)
| do_set3dListenerAt (aAtX aAtY aAtZ : float)
| do_set3dListenerUp (aUpX aUpY aUpZ : float).

Definition ignore {S A} (m : M S A) : M S unit := m ;;; ret tt.

(** The program serving one request. *)
Definition serve (q : request) : M Traced unit :=
  match q with
  | do_init r => on_player (ignore (init r))
  | do_dispose => on_player dispose
  | do_loadFile name hash r => on_player (ignore (loadFile name hash r))
  | do_loadFromMemory buffer hash len r =>
      on_player (ignore (loadFromMemory buffer hash len r))
  | do_loadWaveform waveform superWave scale detune hash rnd =>
      on_player (ignore (loadWaveform waveform superWave scale detune hash rnd))
  | do_setWaveformScale soundHash x => on_player (setWaveformScale soundHash x)
  | do_setWaveformDetune soundHash x =>
      on_player (setWaveformDetune soundHash x)
  | do_setWaveform soundHash x => on_player (setWaveform soundHash x)
  | do_setWaveformFreq soundHash x => on_player (setWaveformFreq soundHash x)
  | do_setWaveformSuperwave soundHash x =>
      on_player (setWaveformSuperwave soundHash x)
  | do_setRelativePlaySpeed h speed =>
      on_player (setRelativePlaySpeed h speed)
  | do_play soundHash volume pan paused newHandle =>
      on_player (ignore (play soundHash volume pan paused newHandle))
  | do_play3d soundHash aPosX aPosY aPosZ aVelX aVelY aVelZ aVolume aPaused
      aBus newHandle =>
      ignore (play3d soundHash aPosX aPosY aPosZ aVelX aVelY aVelZ aVolume
                aPaused aBus newHandle)
  | do_stop h => on_player (stop h)
  | do_disposeSound soundHash => disposeSound soundHash
  | do_disposeAllSound => on_player disposeAllSound
  | do_textToSpeech text handle r newHandle =>
      ignore (textToSpeech text handle r newHandle)
  | do_getLength soundHash len => ignore (getLength soundHash len)
  | do_seek h time r => ignore (seek h time r)
  | do_set3dListenerAt aAtX aAtY aAtZ => set3dListenerAt aAtX aAtY aAtZ
  | do_set3dListenerUp aUpX aUpY aUpZ => set3dListenerUp aUpX aUpY aUpZ
  end.

(** The program serving requests one after the other. *)
Fixpoint serve_all (qs : list request) : M Traced unit :=
  match qs with
  | [] => ret tt
  | q :: qs' => serve q ;;; serve_all qs'
  end.

End WithHeaders.

(** Defaults for running the registry on concrete inputs. *)
Definition example_defaults : ActiveSoundDefaults :=
  {| soundHash0 := 0; soundType0 := TYPE_WAV |}.

(** Players to run the operations on: initialized and empty, holding
    "a.wav", and not yet initialized. *)
Definition example_empty : Traced := mkTraced example_player [].
Definition example_holding : Traced := mkTraced example_loaded [].

(** A program that initializes the player, loads a file, plays it,
    stops it and disposes of the player. *)
Definition example_requests : list request :=
  [do_init 0; do_loadFile "a.wav" 0 0;
   do_play 5 (S754_zero false) (S754_zero false) false 9;
   do_stop 9; do_dispose].

(** A synthesized sound as [loadWaveform] builds it. *)
Definition example_synth : ActiveSound :=
  mkActiveSound
    (Some (Synth (mkBasicwave 0 false (S754_zero false) (S754_zero false)
                    (S754_zero false))))
    "" 7 [] TYPE_SYNTH.

End PlayerExt.

(** * Device enumeration ([src/capture.cpp]) *)

Module CaptureExt.
Import Capture.

(** The fields of [ma_device_info] that [listCaptureDevices] reads. *)
Record ma_device_info := mk_info {
  info_name : string;
  info_isDefault : Z
}.

(** [CaptureDevice] ([src/capture.h]) *)
Record CaptureDevice := mk_device {
  name : string;
  isDefault : Z
}.

(** The calls [listCaptureDevices] makes into the device layer. *)
Inductive ContextCall :=
| ma_context_init
| ma_context_get_devices.

(** The members of [Capture] that [listCaptureDevices] writes.  The two
    arrays are the ones the device layer hands out; [playbackCount] and
    [captureCount] are their lengths. *)
Record Context := mkContext {
  pPlaybackInfos : list ma_device_info;
  pCaptureInfos : list ma_device_info;
  result : ma_result;
  context : list ContextCall
}.

Definition call (c : ContextCall) (r : ma_result) : M Context unit :=
  modify (fun x => mkContext (pPlaybackInfos x) (pCaptureInfos x) r
                     (context x ++ [c])).

Definition set_infos (playback capture : list ma_device_info)
  : M Context unit :=
  modify (fun x => mkContext playback capture (result x) (context x)).

(** [cd.name = strdup(info.name); cd.isDefault = info.isDefault] *)
Definition device_of (info : ma_device_info) : CaptureDevice :=
  mk_device (info_name info) (info_isDefault info).

(** The loop of [listCaptureDevices] with [n] rounds left: round [i]
    reads [pCaptureInfos[i]], which must exist. *)
Fixpoint collect (n i : nat) (infos : list ma_device_info)
    (ret : list CaptureDevice) : option (list CaptureDevice) :=
  match n with
  | O => Some ret
  | S n' =>
      match infos !! i with
      | Some info => collect n' (S i) infos (ret ++ [device_of info])
      | None => None
      end
  end.

(** [Capture::listCaptureDevices], for the answers [r_init] of
    [ma_context_init] and [r_devices] of [ma_context_get_devices], which
    on success hands out the arrays [playback] and [capture]. *)
Definition listCaptureDevices (r_init r_devices : ma_result)
    (playback capture : list ma_device_info) : M Context (list CaptureDevice) :=
  call ma_context_init r_init ;;;
  match r_init with
  | MA_ERROR _ => ret []
  | MA_SUCCESS =>
      call ma_context_get_devices r_devices ;;;
      match r_devices with
      | MA_ERROR _ => ret []
      | MA_SUCCESS =>
          set_infos playback capture ;;;
          playbackCount <- gets (fun x => length (pPlaybackInfos x)) ;;
          infos <- gets pCaptureInfos ;;
          defined (collect playbackCount 0 infos [])
      end
  end.

End CaptureExt.

(** * Facts about the sound registry *)

Module PlayerFacts.
Import Player.

(** ** The lookup *)

Lemma find_if_End_inv pred v :
  find_if pred v = Some End ->
  Forall (fun o => exists f, o = Some f /\ pred f = false) v.
Proof.
  induction v as [|[f|] v IH]; simpl; intros E.
  - constructor.
  - destruct (pred f) eqn:Ef; [discriminate|].
    destruct (find_if pred v) as [[i g|]|]; try discriminate.
    constructor; [exists f; auto | apply IH; reflexivity].
  - discriminate.
Qed.

Lemma find_if_It_inv pred v i f :
  find_if pred v = Some (It i f) ->
  v !! i = Some (Some f) /\ pred f = true.
Proof.
  revert i; induction v as [|[g|] v IH]; simpl; intros i E; try discriminate.
  destruct (pred g) eqn:Eg.
  - inversion E; subst; auto.
  - destruct (find_if pred v) as [[j k|]|]; try discriminate.
    inversion E; subst. simpl. apply IH; reflexivity.
Qed.

Lemma find_if_app_It pred v w i f :
  find_if pred v = Some (It i f) -> find_if pred (v ++ w) = Some (It i f).
Proof.
  revert i; induction v as [|[g|] v IH]; simpl; intros i E; try discriminate.
  destruct (pred g); [assumption|].
  destruct (find_if pred v) as [[j k|]|]; try discriminate.
  inversion E; subst. rewrite (IH j); reflexivity.
Qed.

Lemma find_if_app_End pred v f w :
  find_if pred v = Some End -> pred f = true ->
  find_if pred (v ++ Some f :: w) = Some (It (length v) f).
Proof.
  intros E Hf. induction v as [|[g|] v IH]; simpl in *; try discriminate.
  - rewrite Hf; reflexivity.
  - destruct (pred g); [discriminate|].
    destruct (find_if pred v) as [[j k|]|]; try discriminate.
    rewrite IH; reflexivity.
Qed.

Lemma find_if_End_app_None pred v w :
  find_if pred v = Some End -> find_if pred (v ++ None :: w) = None.
Proof.
  intros E. induction v as [|[g|] v IH]; simpl in *; try discriminate.
  - reflexivity.
  - destruct (pred g); [discriminate|].
    destruct (find_if pred v) as [[j k|]|]; try discriminate.
    rewrite IH; reflexivity.
Qed.

Lemma count_hash_app h v w :
  count_hash h (v ++ w) = (count_hash h v + count_hash h w)%nat.
Proof. unfold count_hash. rewrite List.filter_app, length_app. reflexivity. Qed.

Lemma count_hash_End h v :
  find_if (hash_is h) v = Some End -> count_hash h v = 0%nat.
Proof.
  intros E. apply find_if_End_inv in E.
  induction E as [|o v [f [-> Hf]] _ IH]; [reflexivity|].
  unfold count_hash in *. simpl. rewrite Hf. exact IH.
Qed.

Lemma count_hash_It h v i f :
  find_if (hash_is h) v = Some (It i f) -> (1 <= count_hash h v)%nat.
Proof.
  revert i; induction v as [|[g|] v IH]; simpl; intros i E; try discriminate.
  unfold count_hash; simpl.
  destruct (hash_is h g) eqn:Eg; simpl; [lia|].
  destruct (find_if (hash_is h) v) as [[j k|]|] eqn:Ev; try discriminate.
  inversion E; subst. apply (IH j); reflexivity.
Qed.

(** ** Loading *)

(** Unfolds the monad so that an operation is a term on the state. *)
Ltac run :=
  unfold find_sound, findByHandle, push_wav, call, bind, ret, gets, modify,
    defined in *;
  simpl in *.

Section Loading.
Context `{Headers}.

Lemma push_wav_eq name newHash c r p :
  push_wav name newHash c r p = Ret (r, newHash) (pushed name newHash c r p).
Proof.
  unfold pushed. run.
  destruct (r =? SO_NO_ERROR); simpl; rewrite ?app_nil_r; reflexivity.
Qed.

Lemma find_if_pushed name h c r p :
  find_if (hash_is h) (sounds p) = Some End ->
  find_if (hash_is h) (sounds (pushed name h c r p))
  = Some (It (length (sounds p)) (new_wav name h)).
Proof.
  intros E. unfold pushed; simpl. rewrite <- app_assoc. simpl.
  apply find_if_app_End; [exact E|]. unfold hash_is; simpl. apply Z.eqb_refl.
Qed.

Lemma count_hash_pushed name h c r p :
  find_if (hash_is h) (sounds p) = Some End ->
  count_hash h (sounds (pushed name h c r p)) = 1%nat.
Proof.
  intros E. unfold pushed; simpl.
  rewrite !count_hash_app, (count_hash_End _ _ E).
  unfold count_hash, hash_is; simpl. rewrite Z.eqb_refl.
  destruct (negb (r =? SO_NO_ERROR)); reflexivity.
Qed.

Lemma loadFile_found name hash r p i f :
  mInited p = true ->
  find_if (hash_is (hash_of name)) (sounds p) = Some (It i f) ->
  loadFile name hash r p = Ret (fileAlreadyLoaded, hash_of name) p.
Proof.
  intros Hi E. unfold loadFile. run. rewrite Hi; simpl. rewrite E.
  reflexivity.
Qed.

Lemma loadFile_fresh name hash r p :
  mInited p = true ->
  find_if (hash_is (hash_of name)) (sounds p) = Some End ->
  loadFile name hash r p
  = Ret (r, hash_of name) (pushed name (hash_of name) (Wav_load name) r p).
Proof.
  intros Hi E. rewrite <- push_wav_eq.
  unfold loadFile, find_sound, bind, gets, defined.
  rewrite Hi; simpl. rewrite E. reflexivity.
Qed.

Lemma loadFromMemory_found buffer hash len r p i f :
  mInited p = true ->
  find_if (hash_is memory_hash) (sounds p) = Some (It i f) ->
  loadFromMemory buffer hash len r p
  = Ret (fileAlreadyLoaded, memory_hash) p.
Proof.
  intros Hi E. unfold loadFromMemory. run. rewrite Hi; simpl. rewrite E.
  reflexivity.
Qed.

Lemma loadFromMemory_fresh buffer hash len r p :
  mInited p = true ->
  find_if (hash_is memory_hash) (sounds p) = Some End ->
  loadFromMemory buffer hash len r p
  = Ret (r, memory_hash)
      (pushed "memory-mapped-sample" memory_hash
         (Wav_loadRawWav buffer len) r p).
Proof.
  intros Hi E. rewrite <- push_wav_eq.
  unfold loadFromMemory, find_sound, bind, gets, defined.
  rewrite Hi; simpl. rewrite E. reflexivity.
Qed.

(** C1. Loading a path twice: when the player is initialized and at most
    one slot holds the hash of the path, a call of [loadFile] that returns
    leaves a registry on which every further [loadFile] of the same path
    returns [fileAlreadyLoaded] with the hash of the path and changes
    nothing, and in which exactly one slot holds that hash. *)
Theorem loadFile_twice name hash hash' r r' p e h p1 :
  mInited p = true ->
  (count_hash (hash_of name) (sounds p) <= 1)%nat ->
  loadFile name hash r p = Ret (e, h) p1 ->
  loadFile name hash' r' p1 = Ret (fileAlreadyLoaded, hash_of name) p1
  /\ count_hash (hash_of name) (sounds p1) = 1%nat.
Proof.
  intros Hi Hc E.
  destruct (find_if (hash_is (hash_of name)) (sounds p)) as [[i f|]|] eqn:Ef.
  - rewrite (loadFile_found _ _ _ _ _ _ Hi Ef) in E. inversion E; subst.
    split; [eapply loadFile_found; eauto|].
    apply count_hash_It in Ef. lia.
  - rewrite (loadFile_fresh _ _ _ _ Hi Ef) in E. inversion E; subst.
    split.
    + eapply loadFile_found; [exact Hi | apply find_if_pushed; exact Ef].
    + apply count_hash_pushed; exact Ef.
  - unfold loadFile in E. run. rewrite Hi in E; simpl in E. rewrite Ef in E.
    discriminate.
Qed.

(** C3. A load that passed the lookup and whose decoding failed returns
    the engine's error and leaves the registry with two more slots: the
    sound that failed to load and an empty slot. *)
Theorem failed_load_is_not_rolled_back hash r p :
  mInited p = true ->
  r <> SO_NO_ERROR ->
  (forall name,
     find_if (hash_is (hash_of name)) (sounds p) = Some End ->
     exists p',
       loadFile name hash r p = Ret (r, hash_of name) p'
       /\ sounds p' = sounds p
            ++ [Some (new_wav name (hash_of name)); None])
  /\ (forall buffer len,
       find_if (hash_is memory_hash) (sounds p) = Some End ->
       exists p',
         loadFromMemory buffer hash len r p
         = Ret (r, memory_hash) p'
         /\ sounds p' = sounds p
              ++ [Some (new_wav "memory-mapped-sample"
                          memory_hash);
                  None]).
Proof.
  intros Hi Hr.
  assert (Hn : negb (r =? SO_NO_ERROR) = true)
    by (apply negb_true_iff, Z.eqb_neq; exact Hr).
  split.
  - intros name E. eexists; split; [apply loadFile_fresh; assumption|].
    unfold pushed; simpl. rewrite Hn, <- app_assoc. reflexivity.
  - intros buffer len E.
    eexists; split; [apply loadFromMemory_fresh; assumption|].
    unfold pushed; simpl. rewrite Hn, <- app_assoc. reflexivity.
Qed.

Lemma loadFromMemory_all_found calls p i f :
  mInited p = true ->
  find_if (hash_is memory_hash) (sounds p) = Some (It i f) ->
  loadFromMemory_all calls p
  = Ret (List.map (fun _ => (fileAlreadyLoaded, memory_hash))
           calls) p.
Proof.
  intros Hi E. induction calls as [|[[[buffer hash] len] r] calls IH].
  - reflexivity.
  - simpl. unfold bind at 1.
    rewrite (loadFromMemory_found _ _ _ _ _ _ _ Hi E).
    unfold bind at 1. rewrite IH. reflexivity.
Qed.

(** C8. [loadFromMemory] keys every sound by the hash of the string
    "memory-mapped-sample", whatever the buffer: once a call has returned
    on an initialized player, every further call, with any buffer, returns
    [fileAlreadyLoaded] with that hash and leaves the player as it is; if
    at most one slot held the hash before, exactly one holds it after. *)
Theorem loadFromMemory_single_identity buffer hash len r p e h p1 :
  mInited p = true ->
  loadFromMemory buffer hash len r p = Ret (e, h) p1 ->
  h = memory_hash
  /\ (forall calls,
        loadFromMemory_all calls p1
        = Ret (List.map (fun _ => (fileAlreadyLoaded, h)) calls) p1)
  /\ ((count_hash h (sounds p) <= 1)%nat -> count_hash h (sounds p1) = 1%nat).
Proof.
  intros Hi E.
  destruct (find_if (hash_is memory_hash) (sounds p))
    as [[i f|]|] eqn:Ef.
  - rewrite (loadFromMemory_found _ _ _ _ _ _ _ Hi Ef) in E.
    inversion E; subst. split; [reflexivity|]. split.
    + intros calls. eapply loadFromMemory_all_found; eauto.
    + intros Hc. apply count_hash_It in Ef. lia.
  - rewrite (loadFromMemory_fresh _ _ _ _ _ Hi Ef) in E.
    inversion E; subst. split; [reflexivity|]. split.
    + intros calls. eapply loadFromMemory_all_found;
        [exact Hi | apply find_if_pushed; exact Ef].
    + intros _. apply count_hash_pushed; exact Ef.
  - unfold loadFromMemory in E. run. rewrite Hi in E; simpl in E.
    rewrite Ef in E. discriminate.
Qed.

(** C6. On every player [disposeAllSound] returns, asks the engine to
    stop all voices and empties the registry; [getSoundsCount] on the
    player it leaves returns 0. *)
Theorem disposeAllSound_then_count p :
  exists p',
    disposeAllSound p = Ret tt p'
    /\ sounds p' = []
    /\ soloud p' = soloud p ++ [soloud_stopAll]
    /\ getSoundsCount p' = Ret 0 p'.
Proof.
  unfold disposeAllSound, getSoundsCount. run.
  eexists; split; [reflexivity|]. simpl. auto.
Qed.

End Loading.

(** ** Lookups on a registry whose slots all hold a sound *)

Lemma play_absent soundHash volume pan paused newHandle p :
  find_if (hash_is soundHash) (sounds p) = Some End ->
  play soundHash volume pan paused newHandle p = Ret 0 p.
Proof. intros E. unfold play. run. rewrite E. reflexivity. Qed.

Lemma play_present soundHash volume pan paused newHandle p i f src :
  find_if (hash_is soundHash) (sounds p) = Some (It i f) ->
  sound f = Some src ->
  play soundHash volume pan paused newHandle p
  = Ret newHandle
      (mkPlayer (mInited p) (<[i := Some (add_handle newHandle f)]> (sounds p))
         (soloud p ++ [soloud_play src volume pan paused 0])).
Proof. intros E Es. unfold play. run. rewrite E, Es. reflexivity. Qed.

Lemma set_synth_absent soundHash set p :
  find_if (hash_is soundHash) (sounds p) = Some End ->
  set_synth soundHash set p = Ret tt p.
Proof. intros E. unfold set_synth. run. rewrite E. reflexivity. Qed.

Lemma set_synth_not_synth soundHash set p i f :
  find_if (hash_is soundHash) (sounds p) = Some (It i f) ->
  soundType f = TYPE_WAV ->
  set_synth soundHash set p = Ret tt p.
Proof. intros E Et. unfold set_synth. run. rewrite E, Et. reflexivity. Qed.

Lemma set_synth_synth soundHash set p i f b :
  find_if (hash_is soundHash) (sounds p) = Some (It i f) ->
  soundType f = TYPE_SYNTH ->
  sound f = Some (Synth b) ->
  set_synth soundHash set p
  = Ret tt (mkPlayer (mInited p)
              (<[i := Some (set_source (Synth (set b)) f)]> (sounds p))
              (soloud p)).
Proof.
  intros E Et Es. unfold set_synth. run. rewrite E, Et, Es. reflexivity.
Qed.

(** The five setters on a registry whose slots all hold a sound: nothing
    changes when the hash is absent or names a sound that is not
    synthesized. *)
Lemma waveform_setters_no_op soundHash p :
  (find_if (hash_is soundHash) (sounds p) = Some End
   \/ exists i f, find_if (hash_is soundHash) (sounds p) = Some (It i f)
                  /\ soundType f = TYPE_WAV) ->
  (forall x, setWaveformScale soundHash x p = Ret tt p)
  /\ (forall x, setWaveformDetune soundHash x p = Ret tt p)
  /\ (forall x, setWaveform soundHash x p = Ret tt p)
  /\ (forall x, setWaveformFreq soundHash x p = Ret tt p)
  /\ (forall x, setWaveformSuperwave soundHash x p = Ret tt p).
Proof.
  intros [E | (i & f & E & Et)]; repeat split; intros x;
    solve [ apply set_synth_absent; exact E
          | eapply set_synth_not_synth; eassumption ].
Qed.

(** The five setters when the hash names a synthesized sound: only the
    parameter that is set changes. *)
Lemma waveform_setters_synth soundHash p i f b :
  find_if (hash_is soundHash) (sounds p) = Some (It i f) ->
  soundType f = TYPE_SYNTH ->
  sound f = Some (Synth b) ->
  (forall x, setWaveformScale soundHash x p
             = Ret tt (with_generator i f (setScale x b) p))
  /\ (forall x, setWaveformDetune soundHash x p
                = Ret tt (with_generator i f (setDetune x b) p))
  /\ (forall x, setWaveform soundHash x p
                = Ret tt (with_generator i f (setWaveform_ x b) p))
  /\ (forall x, setWaveformFreq soundHash x p
                = Ret tt (with_generator i f (setFreq x b) p))
  /\ (forall x, setWaveformSuperwave soundHash x p
                = Ret tt (with_generator i f (setSuperWave x b) p)).
Proof.
  intros E Et Es; repeat split; intros x;
    apply set_synth_synth; assumption.
Qed.

(** ** Handles *)


Lemma find_owner_Owner_inv h v i f k :
  find_owner h v = Some (Owner i f k) ->
  v !! i = Some (Some f) /\ index_of h (handle f) = Some k.
Proof.
  revert i; induction v as [|[g|] v IH]; simpl; intros i E; try discriminate.
  destruct (index_of h (handle g)) eqn:Ei.
  - inversion E; subst; auto.
  - destruct (find_owner h v) as [[j g' k'|]|]; try discriminate.
    inversion E; subst. simpl. apply IH; reflexivity.
Qed.

Lemma index_of_Some h l k : index_of h l = Some k -> l !! k = Some h.
Proof.
  revert k; induction l as [|x l IH]; simpl; intros k E; [discriminate|].
  destruct (Z.eqb_spec x h).
  - inversion E; subst; reflexivity.
  - destruct (index_of h l); simpl in E; [|discriminate].
    inversion E; subst. simpl. apply IH; reflexivity.
Qed.


Lemma others_without h l : ~ In h (others h l).
Proof.
  unfold others, is_handle. rewrite List.filter_In. intros [_ E].
  rewrite Z.eqb_refl in E. discriminate.
Qed.



Lemma stop_untracked h p :
  find_owner h (sounds p) = Some Nullptr -> stop h p = Ret tt p.
Proof. intros E. unfold stop. run. rewrite E. reflexivity. Qed.


(** A handle that [play] recorded twice for one sound is still in the
    list after [stop]: the single-iterator [erase] removes one slot. *)
Example stop_handle_recorded_twice :
  stop 5 (mkPlayer true [Some (set_handles [5; 5] example_sound)] [])
  = Ret tt (mkPlayer true [Some (set_handles [5] example_sound)]
              [soloud_stop 5]).
Proof. reflexivity. Qed.

(** ** Lookups after a load that failed *)

Lemma find_if_behind_empty_slot pred v f :
  find_if pred v = Some End -> pred f = false ->
  find_if pred (v ++ [Some f; None]) = None.
Proof.
  intros E Hf. induction v as [|[g|] v IH]; simpl in *; try discriminate.
  - rewrite Hf. reflexivity.
  - destruct (pred g); [discriminate|].
    destruct (find_if pred v) as [[j k|]|]; try discriminate.
    rewrite IH; reflexivity.
Qed.

Lemma find_owner_behind_empty_slot h v f :
  find_owner h v = Some Nullptr -> index_of h (handle f) = None ->
  find_owner h (v ++ [Some f; None]) = None.
Proof.
  intros E Hf. induction v as [|[g|] v IH]; simpl in *; try discriminate.
  - rewrite Hf. reflexivity.
  - destruct (index_of h (handle g)); [discriminate|].
    destruct (find_owner h v) as [[j g' k|]|]; try discriminate.
    rewrite IH; reflexivity.
Qed.

Section AfterFailedLoad.
Context `{Headers}.
Variables (name : string) (hash : Z) (r : SoLoud_result) (p : Player).
Hypothesis inited : mInited p = true.
Hypothesis failed : r <> SO_NO_ERROR.
Hypothesis fresh : find_if (hash_is (hash_of name)) (sounds p) = Some End.

Local Abbreviation p1 := (pushed name (hash_of name) (Wav_load name) r p).

Lemma failed_load_sounds :
  loadFile name hash r p = Ret (r, hash_of name) p1
  /\ sounds p1 = sounds p
       ++ [Some (new_wav name (hash_of name)); None].
Proof.
  split; [apply loadFile_fresh; assumption|].
  unfold pushed; simpl.
  replace (negb (r =? SO_NO_ERROR)) with true
    by (symmetry; apply negb_true_iff, Z.eqb_neq; exact failed).
  rewrite <- app_assoc. reflexivity.
Qed.

(** After the failed load, the lookup of any other hash that was absent
    before reads through the empty slot. *)
Lemma lookup_after_failed_load h :
  h <> hash_of name ->
  find_if (hash_is h) (sounds p) = Some End ->
  find_if (hash_is h) (sounds p1) = None.
Proof.
  intros Hh E. rewrite (proj2 failed_load_sounds).
  apply find_if_behind_empty_slot; [exact E|].
  unfold hash_is; simpl. apply Z.eqb_neq. congruence.
Qed.

Lemma play_after_failed_load h volume pan paused newHandle :
  h <> hash_of name ->
  find_if (hash_is h) (sounds p) = Some End ->
  play h volume pan paused newHandle p1 = Undefined.
Proof.
  intros Hh E. unfold play, find_sound, bind, gets, defined.
  rewrite (lookup_after_failed_load h Hh E). reflexivity.
Qed.

Lemma set_synth_after_failed_load h set :
  h <> hash_of name ->
  find_if (hash_is h) (sounds p) = Some End ->
  set_synth h set p1 = Undefined.
Proof.
  intros Hh E. unfold set_synth, find_sound, bind, gets, defined.
  rewrite (lookup_after_failed_load h Hh E). reflexivity.
Qed.

Lemma stop_after_failed_load h :
  find_owner h (sounds p) = Some Nullptr ->
  stop h p1 = Undefined.
Proof.
  intros E. unfold stop, findByHandle, bind, gets, defined.
  rewrite (proj2 failed_load_sounds).
  rewrite (find_owner_behind_empty_slot h _ _ E); reflexivity.
Qed.

End AfterFailedLoad.

(** ** Play speed *)

(** [0.05] stored in a [float]: 13421773 * 2^-28. *)
Example float_0_05 :
  double_0_05 = S754_finite false 7205759403792794 (-57)
  /\ double_to_float double_0_05 = S754_finite false 13421773 (-28).
Proof. split; vm_compute; reflexivity. Qed.

Lemma clamp_speed_not_below speed :
  SFltb (float_to_double (clamp_speed speed)) double_0_05 = false.
Proof.
  unfold clamp_speed.
  destruct (SFltb (float_to_double speed) double_0_05) eqn:E.
  - vm_compute. reflexivity.
  - exact E.
Qed.

(** C10. [setRelativePlaySpeed] forwards to the engine, for every handle
    and speed, the clamped speed: it is never below [0.05]; a speed below
    [0.05] is replaced by [0.05] (as a [float]) and so is not passed on
    unchanged; any other speed is passed on as it is.  The call always
    returns. *)
Theorem setRelativePlaySpeed_clamps h speed p :
  setRelativePlaySpeed h speed p
  = Ret tt (mkPlayer (mInited p) (sounds p)
              (soloud p ++ [soloud_setRelativePlaySpeed h (clamp_speed speed)]))
  /\ SFltb (float_to_double (clamp_speed speed)) double_0_05 = false
  /\ (SFltb (float_to_double speed) double_0_05 = true ->
      clamp_speed speed = double_to_float double_0_05
      /\ clamp_speed speed <> speed)
  /\ (SFltb (float_to_double speed) double_0_05 = false ->
      clamp_speed speed = speed).
Proof.
  split; [reflexivity|]. split; [apply clamp_speed_not_below|].
  split; intros E.
  - split; [unfold clamp_speed; rewrite E; reflexivity|].
    intros Heq. pose proof (clamp_speed_not_below speed) as Hc.
    rewrite Heq in Hc. congruence.
  - unfold clamp_speed; rewrite E; reflexivity.
Qed.

(** ** The registry on concrete inputs *)

Lemma loadFile_twice_witness :
  mInited example_player = true
  /\ (count_hash (@hash_of example_headers "a.wav") (sounds example_player)
      <= 1)%nat
  /\ @loadFile example_headers "a.wav" 0 0 example_player
     = Ret (0, 5) example_loaded
  /\ @loadFile example_headers "a.wav" 0 0
       example_loaded
     = Ret (4, 5) example_loaded
  /\ count_hash 5 [Some example_sound] = 1%nat.
Proof.
  split; [reflexivity|]. split; [vm_compute; lia|]. split; [reflexivity|].
  apply (@loadFile_twice example_headers "a.wav" 0 0 0 0 example_player 0 5
           example_loaded);
    [reflexivity | vm_compute; lia | reflexivity].
Defined.

Lemma failed_load_is_not_rolled_back_witness :
  mInited example_player = true
  /\ 2 <> @SO_NO_ERROR example_headers
  /\ exists p',
       @loadFile example_headers "missing.wav" 0 2 example_player
       = Ret (2, 11) p'
       /\ sounds p'
          = [Some (new_wav "missing.wav" 11); None].
Proof.
  split; [reflexivity|]. split; [discriminate|].
  exact (proj1 (@failed_load_is_not_rolled_back example_headers 0 2
                  example_player eq_refl ltac:(discriminate))
           "missing.wav" eq_refl).
Defined.

Lemma loadFromMemory_single_identity_witness :
  mInited example_player = true
  /\ @loadFromMemory example_headers [S754_zero false] 0 1 0 example_player
     = Ret (0, 20)
         (@pushed example_headers "memory-mapped-sample" 20
            (Wav_loadRawWav [S754_zero false] 1) 0 example_player)
  /\ @loadFromMemory_all example_headers
       [([S754_infinity false; S754_nan], 0, 2, 0)]
       (@pushed example_headers "memory-mapped-sample" 20
          (Wav_loadRawWav [S754_zero false] 1) 0 example_player)
     = Ret [(4, 20)]
         (@pushed example_headers "memory-mapped-sample" 20
            (Wav_loadRawWav [S754_zero false] 1) 0 example_player).
Proof.
  split; [reflexivity|]. split; [reflexivity|].
  exact (proj1 (proj2 (@loadFromMemory_single_identity example_headers
                         [S754_zero false] 0 1 0 example_player 0 20 _
                         eq_refl eq_refl))
           [([S754_infinity false; S754_nan], 0, 2, 0)]).
Defined.

Lemma setRelativePlaySpeed_clamps_witness :
  SFltb (float_to_double (S754_zero false)) double_0_05 = true
  /\ clamp_speed (S754_zero false) = S754_finite false 13421773 (-28)
  /\ clamp_speed (S754_zero false) <> S754_zero false.
Proof.
  split; [reflexivity|].
  exact (proj1 (proj2 (proj2 (setRelativePlaySpeed_clamps 1 (S754_zero false)
                                example_player)))
           eq_refl).
Defined.

(** C2, on the registry a failed load leaves.  The player was
    initialized and [loadFile] returned the engine's error for
    "missing.wav"; no slot holds the hash 7, and [play] of 7 does not
    return 0: the lookup reads through the empty slot. *)
Theorem play_unknown_hash_after_failed_load :
  exists p,
    after_failed_load = Ret (2, 11) p
    /\ sounds p
       = [Some (new_wav "missing.wav" 11); None]
    /\ count_hash 7 (sounds p) = 0%nat
    /\ forall volume pan paused newHandle,
         play 7 volume pan paused newHandle p = Undefined.
Proof.
  eexists. split; [vm_compute; reflexivity|].
  split; [reflexivity|]. split; [reflexivity|].
  intros volume pan paused newHandle.
  apply (@play_after_failed_load example_headers "missing.wav" 0 2
           example_player);
    [reflexivity | discriminate | reflexivity | discriminate | reflexivity].
Qed.

(** C5, on the registry a failed load leaves.  No sound tracks the
    handle 7, and [stop] of 7 is not a no-op: the scan for the owner reads
    through the empty slot. *)
Theorem stop_untracked_handle_after_failed_load :
  exists p,
    after_failed_load = Ret (2, 11) p
    /\ Forall (fun o => forall f, o = Some f -> ~ In 7 (handle f)) (sounds p)
    /\ stop 7 p = Undefined.
Proof.
  eexists. split; [vm_compute; reflexivity|]. split.
  - repeat constructor; intros f E; inversion E; subst; simpl; tauto.
  - apply (@stop_after_failed_load example_headers "missing.wav" 0 2
             example_player);
      [reflexivity | discriminate | reflexivity | reflexivity].
Qed.

(** C7, on the registry a failed load leaves.  No slot holds the hash 7,
    and none of the five setters called with 7 is a no-op: each lookup
    reads through the empty slot. *)
Theorem waveform_setters_after_failed_load :
  exists p,
    after_failed_load = Ret (2, 11) p
    /\ count_hash 7 (sounds p) = 0%nat
    /\ (forall x, setWaveformScale 7 x p = Undefined)
    /\ (forall x, setWaveformDetune 7 x p = Undefined)
    /\ (forall x, setWaveform 7 x p = Undefined)
    /\ (forall x, setWaveformFreq 7 x p = Undefined)
    /\ (forall x, setWaveformSuperwave 7 x p = Undefined).
Proof.
  eexists. split; [vm_compute; reflexivity|]. split; [reflexivity|].
  repeat split; intros x;
    apply (@set_synth_after_failed_load example_headers "missing.wav" 0 2
             example_player);
    solve [reflexivity | discriminate].
Qed.

End PlayerFacts.

(** * Facts about the capture relay *)

Module CaptureFacts.
Import Capture.

Ltac run :=
  unfold data_callback, init, dispose, isInited, startCapture, stopCapture,
    initializeBuffer, call, bind, ret, gets, modify, defined in *;
  simpl in *.












(** ** The relay on concrete inputs *)



End CaptureFacts.

(** * How the operations of the registry compose *)

Module PlayerLaws.
Import Player PlayerFacts PlayerExt.

(** ** Lookups *)

(** The lookup stops at the first sound that matches: the slots behind
    it are not read. *)
Lemma find_if_first_match pred v i f :
  v !! i = Some (Some f) ->
  pred f = true ->
  Forall (fun o => exists g, o = Some g /\ pred g = false) (take i v) ->
  find_if pred v = Some (It i f).
Proof.
  revert i; induction v as [|o v IH]; intros i Hi Hf Hb; [discriminate|].
  destruct i as [|i]; simpl in *.
  - inversion Hi; subst. rewrite Hf. reflexivity.
  - inversion Hb as [|? ? (g & -> & Hg) Hb']; subst.
    rewrite Hg, (IH i Hi Hf Hb'). reflexivity.
Qed.






Lemma set_handles_add_handle h f : set_handles (handle f) (add_handle h f) = f.
Proof. destruct f; reflexivity. Qed.

(** ** Playing and stopping *)


(** [play] acts on the first sound that has the hash, whatever lies
    behind it in the registry (sounds with the same hash, empty slots):
    with sounds of other hashes in the slots before slot [i], it returns
    the engine's handle and records it for the sound in slot [i] only. *)
Theorem play_reaches_first_match soundHash volume pan paused newHandle p i f
    src :
  sounds p !! i = Some (Some f) ->
  Player.soundHash f = soundHash ->
  sound f = Some src ->
  Forall (fun o => exists g, o = Some g /\ Player.soundHash g <> soundHash)
    (take i (sounds p)) ->
  play soundHash volume pan paused newHandle p
  = Ret newHandle
      (mkPlayer (mInited p) (<[i := Some (add_handle newHandle f)]> (sounds p))
         (soloud p ++ [soloud_play src volume pan paused 0])).
Proof.
  intros Hi Hh Es Hb. apply play_present; [|exact Es].
  apply find_if_first_match;
    [exact Hi | unfold hash_is; apply Z.eqb_eq; exact Hh |].
  eapply Forall_impl; [exact Hb|].
  intros o (g & -> & Hg). exists g; split; [reflexivity|].
  unfold hash_is. apply Z.eqb_neq. exact Hg.
Qed.

Section Loads.
Context `{Headers} `{ActiveSoundDefaults}.

(** ** The player that is not initialized *)

(** On a player that is not initialized the three loads, [textToSpeech]
    and [seek] return [backendNotInited]; the caller's variable, the
    registry and both logs stay as they are. *)
Theorem uninitialized_player_refuses x :
  mInited (player x) = false ->
  (forall name hash r,
     loadFile name hash r (player x) = Ret (backendNotInited, hash) (player x))
  /\ (forall buffer hash len r,
       loadFromMemory buffer hash len r (player x)
       = Ret (backendNotInited, hash) (player x))
  /\ (forall waveform superWave scale detune hash rnd,
       loadWaveform waveform superWave scale detune hash rnd (player x)
       = Ret (backendNotInited, hash) (player x))
  /\ (forall text handle r newHandle,
       textToSpeech text handle r newHandle x
       = Ret (backendNotInited, handle) x)
  /\ (forall h time r, seek h time r x = Ret backendNotInited x).
Proof.
  intros Hi. repeat split; intros;
    unfold loadFile, loadFromMemory, loadWaveform, textToSpeech, seek,
      on_player, bind, ret, gets;
    rewrite Hi; simpl; try reflexivity; destruct x; reflexivity.
Qed.

(** ** [init] *)

(** [init] always returns.  It answers the engine's code and leaves the
    player initialized when the engine started, and answers
    [backendNotInited] and leaves it not initialized otherwise.  A player
    that was initialized is disposed of first, so its registry is empty
    afterwards, either way; the registry of one that was not is kept. *)
Theorem init_again r p :
  exists e p',
    init r p = Ret e p'
    /\ (r = SO_NO_ERROR -> e = r /\ mInited p' = true)
    /\ (r <> SO_NO_ERROR -> e = backendNotInited /\ mInited p' = false)
    /\ (mInited p = true ->
        sounds p' = []
        /\ soloud p' = soloud p ++ [soloud_deinit; soloud_init])
    /\ (mInited p = false ->
        sounds p' = sounds p /\ soloud p' = soloud p ++ [soloud_init]).
Proof.
  unfold init, dispose, Player.call, bind, ret, gets, modify.
  destruct (mInited p) eqn:Hi; simpl;
    destruct (Z.eqb_spec r SO_NO_ERROR) as [Hr|Hr]; simpl;
    eexists _, _; (split; [reflexivity|]); simpl;
    rewrite <- ?app_assoc; repeat split; try congruence; try tauto.
Qed.

(** ** Synthesized waveforms *)

(** [loadWaveform] on an initialized player always returns [noError]:
    it makes no lookup, so it appends its sound whatever the registry
    holds, also when a sound with the same hash is there already; the
    number of sounds with that hash grows by one. *)
Theorem loadWaveform_appends waveform superWave scale detune hash rnd p :
  mInited p = true ->
  exists p',
    loadWaveform waveform superWave scale detune hash rnd p
    = Ret (noError, to_unsigned_int rnd) p'
    /\ sounds p'
       = sounds p
         ++ [Some (mkActiveSound
                     (Some (Synth (mkBasicwave waveform superWave detune scale
                                     Basicwave_freq)))
                     "" (to_unsigned_int rnd) [] TYPE_SYNTH)]
    /\ count_hash (to_unsigned_int rnd) (sounds p')
       = S (count_hash (to_unsigned_int rnd) (sounds p))
    /\ mInited p' = true
    /\ soloud p' = soloud p.
Proof.
  intros Hi. unfold loadWaveform, bind, ret, gets, modify. rewrite Hi; simpl.
  eexists. split; [reflexivity|]. simpl. split; [reflexivity|].
  split; [|auto].
  rewrite count_hash_app. unfold count_hash at 2, hash_is. simpl.
  rewrite Z.eqb_refl. simpl. lia.
Qed.


(** ** After a load that failed *)

(** The file of a load that failed stays in the registry as a sound that
    can be played: [play] with the hash the failed [loadFile] gave does
    not return 0 but asks the engine to play and records the handle. *)
Theorem failed_load_stays_playable name hash r volume pan paused newHandle p :
  mInited p = true ->
  r <> SO_NO_ERROR ->
  find_if (hash_is (hash_of name)) (sounds p) = Some End ->
  exists p1 p2,
    loadFile name hash r p = Ret (r, hash_of name) p1
    /\ play (hash_of name) volume pan paused newHandle p1 = Ret newHandle p2
    /\ sounds p2
       = sounds p
         ++ [Some (add_handle newHandle (new_wav name (hash_of name))); None]
    /\ soloud p2
       = soloud p ++ [Wav_load name; soloud_play Wav volume pan paused 0].
Proof.
  intros Hi Hr Ef.
  destruct (failed_load_sounds name hash r p Hi Hr Ef) as [El Es].
  eexists _, _. split; [exact El|].
  erewrite play_present;
    [ | apply find_if_pushed; exact Ef | reflexivity ].
  split; [reflexivity|]. simpl.
  replace (negb (r =? SO_NO_ERROR)) with true
    by (symmetry; apply negb_true_iff, Z.eqb_neq; exact Hr).
  rewrite <- !app_assoc. split; [|reflexivity]. simpl.
  replace (length (sounds p)) with (length (sounds p) + 0)%nat by lia.
  rewrite insert_app_r. reflexivity.
Qed.

End Loads.

(** ** Disposing of one sound *)

Lemma find_if_End_full pred v : find_if pred v = Some End -> full v.
Proof.
  intros E. apply find_if_End_inv in E. eapply Forall_impl; [exact E|].
  intros o (f & -> & _). discriminate.
Qed.

Lemma full_forallb v :
  full v ->
  forallb (fun o => match o with Some _ => true | None => false end) v = true.
Proof.
  induction 1 as [|[f|] v Ho _ IH]; simpl; [reflexivity | exact IH |].
  contradiction.
Qed.

Lemma not_full_forallb v :
  In None v ->
  forallb (fun o : option ActiveSound =>
             match o with Some _ => true | None => false end) v = false.
Proof.
  induction v as [|[f|] v IH]; simpl; intros Hin.
  - contradiction.
  - apply IH. destruct Hin as [Hin|Hin]; [discriminate | exact Hin].
  - reflexivity.
Qed.

Lemma kept_length h v :
  full v ->
  (length (kept (hash_is h) v) + count_hash h v = length v)%nat.
Proof.
  unfold kept, count_hash.
  induction 1 as [|[f|] v Ho _ IH]; simpl; [reflexivity | | contradiction].
  destruct (hash_is h f); simpl; lia.
Qed.

Lemma kept_none h v :
  full v -> count_hash h v = 0%nat -> kept (hash_is h) v = v.
Proof.
  unfold kept, count_hash.
  induction 1 as [|[f|] v Ho _ IH]; simpl; intros Hc;
    [reflexivity | | contradiction].
  destruct (hash_is h f); simpl in *; [discriminate|].
  f_equal. apply IH. exact Hc.
Qed.

(** With one sound of the hash, the sounds kept are all but that one. *)
Lemma kept_unique h v i f :
  find_if (hash_is h) v = Some (It i f) ->
  full v ->
  count_hash h v = 1%nat ->
  kept (hash_is h) v = delete i v.
Proof.
  revert i; induction v as [|[g|] v IH]; intros i E Hf Hc; simpl in E;
    try discriminate.
  inversion Hf as [|? ? _ Hf']; subst.
  unfold kept, count_hash in *. simpl in *.
  destruct (hash_is h g) eqn:Eg; simpl in *.
  - inversion E; subst. simpl.
    apply (kept_none h v Hf'). unfold count_hash. lia.
  - destruct (find_if (hash_is h) v) as [[j k|]|] eqn:Ev; try discriminate.
    inversion E; subst. simpl. f_equal. apply (IH j eq_refl Hf' Hc).
Qed.

(** [erase(remove_if(...))] on a full registry that holds the hash: the
    sounds kept, then what the vector held behind the erased slot. *)
Lemma erase_remove_if_full h v :
  full v ->
  (1 <= count_hash h v)%nat ->
  erase_remove_if (hash_is h) v
  = Some (kept (hash_is h) v
          ++ List.map (left_behind (hash_is h))
               (drop (S (length (kept (hash_is h) v))) v)).
Proof.
  intros Hf Hc. pose proof (kept_length h v Hf) as Hl.
  unfold erase_remove_if, remove_if. rewrite (full_forallb v Hf).
  unfold erase. generalize dependent (kept (hash_is h) v). intros k Hl.
  rewrite length_app, length_map, length_drop.
  destruct (Nat.ltb_spec (length k) (length k + (length v - length k)));
    [|lia].
  rewrite take_app_length.
  replace (S (length k)) with (length k + 1)%nat by lia.
  rewrite drop_app_add. f_equal. f_equal.
  rewrite <- drop_drop, <- !skipn_map. reflexivity.
Qed.

Lemma erase_remove_if_unique h v i f :
  find_if (hash_is h) v = Some (It i f) ->
  full v ->
  count_hash h v = 1%nat ->
  erase_remove_if (hash_is h) v = Some (delete i v).
Proof.
  intros E Hf Hc. rewrite erase_remove_if_full by (auto; lia).
  pose proof (kept_length h v Hf) as Hl.
  rewrite drop_ge by lia. simpl. rewrite app_nil_r.
  f_equal. eapply kept_unique; eassumption.
Qed.

Lemma erase_remove_if_empty_slot pred v :
  In None v -> erase_remove_if pred v = None.
Proof.
  intros Hin. unfold erase_remove_if, remove_if.
  rewrite (not_full_forallb v Hin). reflexivity.
Qed.

Lemma count_hash_delete h v i f :
  v !! i = Some (Some f) -> hash_is h f = true ->
  S (count_hash h (delete i v)) = count_hash h v.
Proof.
  revert i; induction v as [|o v IH]; intros i Hi Hh; [discriminate|].
  destruct i as [|i]; simpl in *.
  - inversion Hi; subst. unfold count_hash. simpl. rewrite Hh. reflexivity.
  - unfold count_hash in *. simpl.
    destruct (match o with Some f0 => hash_is h f0 | None => false end);
      simpl; rewrite <- (IH i Hi Hh); reflexivity.
Qed.

Lemma delete_last {A} (v : list A) o : delete (length v) (v ++ [o]) = v.
Proof. induction v as [|a v IH]; simpl; [reflexivity | f_equal; exact IH]. Qed.

Section Disposing.
Context `{Headers} `{ActiveSoundDefaults}.

Lemma disposeSound_absent soundHash x :
  find_if (hash_is soundHash) (sounds (player x)) = Some End ->
  disposeSound soundHash x = Ret tt x.
Proof.
  intros E. unfold disposeSound, on_player, find_sound, bind, gets, defined.
  rewrite E. destruct x; reflexivity.
Qed.

(** [disposeSound] when one sound has the hash and no slot is empty. *)
Lemma disposeSound_unique soundHash x i f src :
  find_if (hash_is soundHash) (sounds (player x)) = Some (It i f) ->
  sound f = Some src ->
  full (sounds (player x)) ->
  count_hash soundHash (sounds (player x)) = 1%nat ->
  disposeSound soundHash x
  = Ret tt
      (mkTraced
         (mkPlayer (mInited (player x)) (delete i (sounds (player x)))
            (soloud (player x)))
         (further x ++ [(length (soloud (player x)), AudioSource_stop src)])).
Proof.
  intros E Es Hf Hc.
  unfold disposeSound, on_player, find_sound, call, bind, ret, gets, modify,
    defined.
  rewrite E. simpl. rewrite Es. simpl.
  rewrite (erase_remove_if_unique _ _ _ _ E Hf Hc). reflexivity.
Qed.

(** [disposeSound] of a hash that exactly one sound has, on a registry
    without empty slots: the sound is asked to stop and its slot is
    taken out; the other sounds keep their order, and no sound has the
    hash afterwards. *)
Theorem disposeSound_removes soundHash x i f src :
  find_if (hash_is soundHash) (sounds (player x)) = Some (It i f) ->
  sound f = Some src ->
  full (sounds (player x)) ->
  count_hash soundHash (sounds (player x)) = 1%nat ->
  disposeSound soundHash x
  = Ret tt
      (mkTraced
         (mkPlayer (mInited (player x)) (delete i (sounds (player x)))
            (soloud (player x)))
         (further x ++ [(length (soloud (player x)), AudioSource_stop src)]))
  /\ count_hash soundHash (delete i (sounds (player x))) = 0%nat.
Proof.
  intros E Es Hf Hc. split.
  - exact (disposeSound_unique _ _ _ _ _ E Es Hf Hc).
  - destruct (find_if_It_inv _ _ _ _ E) as [Hi Hh].
    pose proof (count_hash_delete _ _ _ _ Hi Hh). lia.
Qed.

(** Loading a file and disposing of it again: after a [loadFile] that
    succeeded on a registry that did not hold the hash, [disposeSound]
    with the hash returned gives back the registry as it was, and the
    file can be loaded anew. *)
Theorem loadFile_then_disposeSound name hash r x :
  mInited (player x) = true ->
  r = SO_NO_ERROR ->
  find_if (hash_is (hash_of name)) (sounds (player x)) = Some End ->
  exists x1 x2,
    on_player (loadFile name hash r) x = Ret (r, hash_of name) x1
    /\ disposeSound (hash_of name) x1 = Ret tt x2
    /\ sounds (player x2) = sounds (player x)
    /\ mInited (player x2) = true
    /\ find_if (hash_is (hash_of name)) (sounds (player x2)) = Some End.
Proof.
  intros Hi Hr Ef.
  assert (Hp : pushed name (hash_of name) (Wav_load name) r (player x)
               = mkPlayer true
                   (sounds (player x) ++ [Some (new_wav name (hash_of name))])
                   (soloud (player x) ++ [Wav_load name])).
  { unfold pushed. rewrite Hi, Hr, Z.eqb_refl. simpl.
    rewrite app_nil_r. reflexivity. }
  eexists _, _. split.
  { unfold on_player. rewrite (loadFile_fresh _ _ _ _ Hi Ef), Hp. reflexivity. }
  assert (Hfull : full (sounds (player x) ++ [Some (new_wav name (hash_of name))])).
  { apply Forall_app. split; [eapply find_if_End_full; exact Ef|].
    repeat constructor. discriminate. }
  assert (Ed := disposeSound_unique (hash_of name)
               (mkTraced (mkPlayer true
                  (sounds (player x) ++ [Some (new_wav name (hash_of name))])
                  (soloud (player x) ++ [Wav_load name])) (further x))
               (length (sounds (player x))) (new_wav name (hash_of name)) Wav).
  simpl in Ed. split.
  - apply Ed.
    + apply find_if_app_End; [exact Ef | apply Z.eqb_refl].
    + reflexivity.
    + exact Hfull.
    + rewrite count_hash_app, (count_hash_End _ _ Ef).
      unfold count_hash, hash_is. simpl. rewrite Z.eqb_refl. reflexivity.
  - simpl. rewrite delete_last. auto.
Qed.

(** On a registry with an empty slot [disposeSound] does not return,
    whatever the hash: the lookup or [std::remove_if] reads through the
    empty slot. *)
Lemma disposeSound_empty_slot soundHash x :
  In None (sounds (player x)) -> disposeSound soundHash x = Undefined.
Proof.
  intros Hin.
  unfold disposeSound, on_player, find_sound, call, bind, ret, gets, modify,
    defined.
  destruct (find_if (hash_is soundHash) (sounds (player x)))
    as [[i f|]|] eqn:E; simpl.
  - destruct (sound f); [|reflexivity]. simpl.
    rewrite (erase_remove_if_empty_slot _ _ Hin). reflexivity.
  - apply find_if_End_full in E. unfold full in E.
    rewrite Forall_forall in E. exfalso.
    apply (E None); [apply list_elem_of_In; exact Hin | reflexivity].
  - reflexivity.
Qed.

(** A load that failed cannot be cleaned up one sound at a time: after
    it [disposeSound] does not return for any hash, the one of the file
    that failed included, while [disposeAllSound] returns and leaves an
    empty registry. *)
Theorem failed_load_blocks_disposeSound name hash r x :
  mInited (player x) = true ->
  r <> SO_NO_ERROR ->
  find_if (hash_is (hash_of name)) (sounds (player x)) = Some End ->
  exists x1,
    on_player (loadFile name hash r) x = Ret (r, hash_of name) x1
    /\ (forall soundHash, disposeSound soundHash x1 = Undefined)
    /\ exists x2,
         on_player disposeAllSound x1 = Ret tt x2 /\ sounds (player x2) = [].
Proof.
  intros Hi Hr Ef.
  destruct (failed_load_sounds name hash r (player x) Hi Hr Ef) as [El Es].
  eexists. split; [unfold on_player; rewrite El; reflexivity|]. split.
  - intros soundHash. apply disposeSound_empty_slot.
    change (In None (sounds (pushed name (hash_of name) (Wav_load name) r
                               (player x)))).
    rewrite Es. apply in_or_app. right. simpl. auto.
  - eexists. split; reflexivity.
Qed.

End Disposing.

(** ** Speech, 3D playing and lengths *)


Section Speech.
Context `{Headers} `{ActiveSoundDefaults}.

(** [textToSpeech] on an initialized player always returns, with the
    engine's code.  Each call leaves one more sound in the registry; when
    the text was accepted the sound tracks the handle, which is handed to
    the caller; when it was not, an empty slot follows the sound and the
    caller's variable is left alone. *)
Theorem textToSpeech_grows_registry text handle r newHandle x :
  mInited (player x) = true ->
  exists x',
    textToSpeech text handle r newHandle x
    = Ret (r, if r =? SO_NO_ERROR then newHandle else handle) x'
    /\ sounds (player x')
       = sounds (player x)
         ++ (if r =? SO_NO_ERROR
             then [Some (new_speech [newHandle])]
             else [Some (new_speech []); None])
    /\ mInited (player x') = true.
Proof.
  intros Hi.
  unfold textToSpeech, on_player, call, bind, ret, gets, modify.
  rewrite Hi. simpl.
  destruct (r =? SO_NO_ERROR); simpl; eexists; repeat split; assumption.
Qed.


(** [play3d] does to the registry what [play] does: for the same hash
    and the same handle from the engine, both return the same value and
    leave the same registry, or both do not return. *)
Theorem play3d_as_play soundHash aPosX aPosY aPosZ aVelX aVelY aVelZ aVolume
    aPaused aBus volume pan paused newHandle x :
  seen (fun x => sounds (player x))
    (play3d soundHash aPosX aPosY aPosZ aVelX aVelY aVelZ aVolume aPaused
       aBus newHandle x)
  = seen sounds (play soundHash volume pan paused newHandle (player x)).
Proof.
  unfold play3d, play, on_player, find_sound, call, Player.call, bind, ret,
    gets, modify, defined.
  destruct (find_if (hash_is soundHash) (sounds (player x))) as [[i f|]|];
    simpl; try reflexivity.
  destruct (sound f); reflexivity.
Qed.


End Speech.

(** ** What every operation keeps *)

Lemma consistent_nil b l : consistent (mkPlayer b [] l).
Proof. split; [reflexivity | constructor]. Qed.

Lemma consistent_log p l :
  consistent p -> consistent (mkPlayer (mInited p) (sounds p) l).
Proof. intros H; exact H. Qed.

Lemma consistent_insert p i o l :
  consistent p -> typed o ->
  consistent (mkPlayer (mInited p) (<[i := o]> (sounds p)) l).
Proof.
  intros [H1 H2] Ho. split; simpl.
  - intros Hi. rewrite (H1 Hi). reflexivity.
  - apply Forall_insert; assumption.
Qed.

Lemma consistent_app p w l :
  consistent p -> mInited p = true -> Forall typed w ->
  consistent (mkPlayer (mInited p) (sounds p ++ w) l).
Proof.
  intros [H1 H2] Hi Hw. split; simpl.
  - congruence.
  - apply Forall_app; split; assumption.
Qed.

Lemma typed_at p i f :
  consistent p -> sounds p !! i = Some (Some f) -> typed (Some f).
Proof.
  intros [_ H2] Hi. rewrite Forall_lookup in H2. exact (H2 i _ Hi).
Qed.

Lemma typed_left_behind pred o : typed o -> typed (left_behind pred o).
Proof.
  destruct o as [f|]; simpl; [|auto]. destruct (pred f); simpl; auto.
Qed.

Lemma erase_remove_if_typed pred v v' :
  Forall typed v -> erase_remove_if pred v = Some v' -> Forall typed v'.
Proof.
  intros Hv. unfold erase_remove_if, remove_if, erase.
  destruct (forallb _ v); [|discriminate].
  destruct (_ <? _)%nat; [|discriminate].
  intros E; inversion E; subst; clear E.
  assert (Hl : Forall typed (kept pred v
                             ++ List.map (left_behind pred)
                                  (drop (length (kept pred v)) v))).
  { apply Forall_app; split.
    - unfold kept. rewrite Forall_forall in *. intros o Ho.
      apply list_elem_of_In, List.filter_In in Ho. destruct Ho as [Ho _].
      apply Hv, list_elem_of_In, Ho.
    - apply Forall_map. eapply Forall_impl; [apply Forall_drop; exact Hv|].
      intros o. apply typed_left_behind. }
  apply Forall_app; split; [apply Forall_take | apply Forall_drop]; exact Hl.
Qed.

Section Keeping.
Context `{Headers} `{ActiveSoundDefaults}.

Lemma init_keeps r p e p' :
  init r p = Ret e p' -> consistent p -> consistent p'.
Proof.
  intros E [H1 H2].
  unfold init, dispose, Player.call, bind, ret, gets, modify in E.
  destruct (mInited p) eqn:Hi; simpl in E;
    destruct (r =? SO_NO_ERROR); simpl in E; inversion E; subst;
    split; simpl; try congruence; auto.
Qed.

Lemma pushed_keeps name newHash c r p :
  mInited p = true -> consistent p -> consistent (pushed name newHash c r p).
Proof.
  intros Hi Hc. unfold pushed. rewrite <- app_assoc.
  apply consistent_app; [exact Hc | exact Hi |].
  destruct (negb (r =? SO_NO_ERROR)); repeat constructor.
Qed.

Lemma loadFile_keeps name hash r p a p' :
  loadFile name hash r p = Ret a p' -> consistent p -> consistent p'.
Proof.
  intros E Hc. destruct (mInited p) eqn:Hi.
  - destruct (find_if (hash_is (hash_of name)) (sounds p)) as [[i f|]|] eqn:Ef.
    + rewrite (loadFile_found _ _ _ _ _ _ Hi Ef) in E.
      inversion E; subst. exact Hc.
    + rewrite (loadFile_fresh _ _ _ _ Hi Ef) in E.
      inversion E; subst. apply pushed_keeps; assumption.
    + unfold loadFile, find_sound, bind, gets, defined in E.
      rewrite Hi in E; simpl in E. rewrite Ef in E. discriminate.
  - unfold loadFile, bind, gets, ret in E. rewrite Hi in E; simpl in E.
    inversion E; subst. exact Hc.
Qed.

Lemma loadFromMemory_keeps buffer hash len r p a p' :
  loadFromMemory buffer hash len r p = Ret a p' ->
  consistent p -> consistent p'.
Proof.
  intros E Hc. destruct (mInited p) eqn:Hi.
  - destruct (find_if (hash_is memory_hash) (sounds p)) as [[i f|]|] eqn:Ef.
    + rewrite (loadFromMemory_found _ _ _ _ _ _ _ Hi Ef) in E.
      inversion E; subst. exact Hc.
    + rewrite (loadFromMemory_fresh _ _ _ _ _ Hi Ef) in E.
      inversion E; subst. apply pushed_keeps; assumption.
    + unfold loadFromMemory, find_sound, bind, gets, defined in E.
      rewrite Hi in E; simpl in E. rewrite Ef in E. discriminate.
  - unfold loadFromMemory, bind, gets, ret in E. rewrite Hi in E; simpl in E.
    inversion E; subst. exact Hc.
Qed.

Lemma loadWaveform_keeps waveform superWave scale detune hash rnd p a p' :
  loadWaveform waveform superWave scale detune hash rnd p = Ret a p' ->
  consistent p -> consistent p'.
Proof.
  intros E Hc. unfold loadWaveform, bind, gets, ret, modify in E.
  destruct (mInited p) eqn:Hi; simpl in E; inversion E; subst;
    [|exact Hc].
  destruct Hc as [_ H2]. split; simpl; [congruence|].
  apply Forall_app; split; [exact H2 | repeat constructor].
Qed.

Lemma set_synth_keeps soundHash set p a p' :
  set_synth soundHash set p = Ret a p' -> consistent p -> consistent p'.
Proof.
  intros E Hc.
  unfold set_synth, find_sound, bind, ret, gets, modify, defined in E.
  destruct (find_if (hash_is soundHash) (sounds p)) as [[i f|]|] eqn:Ef;
    simpl in E; try discriminate.
  - destruct (soundType f) eqn:Et; simpl in E.
    + inversion E; subst. exact Hc.
    + destruct (sound f) as [[|b]|]; simpl in E; try discriminate.
      inversion E; subst. unfold set_sounds; simpl.
      apply consistent_insert; [exact Hc|]. simpl. exact Et.
  - inversion E; subst. exact Hc.
Qed.

Lemma play_keeps soundHash volume pan paused newHandle p a p' :
  play soundHash volume pan paused newHandle p = Ret a p' ->
  consistent p -> consistent p'.
Proof.
  intros E Hc.
  unfold play, find_sound, Player.call, bind, ret, gets, modify, defined in E.
  destruct (find_if (hash_is soundHash) (sounds p)) as [[i f|]|] eqn:Ef;
    simpl in E; try discriminate.
  - destruct (sound f); simpl in E; [|discriminate].
    inversion E; subst. unfold set_sounds; simpl.
    apply consistent_insert; [exact Hc|].
    apply find_if_It_inv in Ef. destruct Ef as [Ef _].
    exact (typed_at _ _ _ Hc Ef).
  - inversion E; subst. exact Hc.
Qed.

Lemma stop_keeps h p a p' :
  stop h p = Ret a p' -> consistent p -> consistent p'.
Proof.
  intros E Hc.
  unfold stop, findByHandle, Player.call, bind, ret, gets, modify, defined
    in E.
  destruct (find_owner h (sounds p)) as [[i f k|]|] eqn:Ef;
    simpl in E; try discriminate.
  - destruct (Player.erase_remove_if (is_handle h) (handle f));
      simpl in E; [|discriminate].
    inversion E; subst. unfold set_sounds; simpl.
    apply consistent_insert; [exact Hc|].
    apply find_owner_Owner_inv in Ef. destruct Ef as [Ef _].
    exact (typed_at _ _ _ Hc Ef).
  - inversion E; subst. exact Hc.
Qed.

Lemma on_player_keeps {A} (m : M Player A) :
  (forall p a p', m p = Ret a p' -> consistent p -> consistent p') ->
  forall x a x',
    on_player m x = Ret a x' ->
    consistent (player x) -> consistent (player x').
Proof.
  intros Hm x a x' E Hc. unfold on_player in E.
  destruct (m (player x)) as [b p'|] eqn:Em; [|discriminate].
  inversion E; subst. simpl. eapply Hm; eassumption.
Qed.

Lemma ignore_keeps {A} (m : M Player A) :
  (forall p a p', m p = Ret a p' -> consistent p -> consistent p') ->
  forall p a p', ignore m p = Ret a p' -> consistent p -> consistent p'.
Proof.
  intros Hm p a p' E Hc. unfold ignore, bind, ret in E.
  destruct (m p) as [b p1|] eqn:Em; [|discriminate].
  inversion E; subst. eapply Hm; eassumption.
Qed.

Lemma disposeSound_keeps soundHash x a x' :
  disposeSound soundHash x = Ret a x' ->
  consistent (player x) -> consistent (player x').
Proof.
  intros E Hc.
  unfold disposeSound, on_player, find_sound, call, bind, ret, gets, modify,
    defined in E.
  destruct (find_if (hash_is soundHash) (sounds (player x)))
    as [[i f|]|] eqn:Ef; simpl in E; try discriminate.
  - destruct (sound f); simpl in E; [|discriminate].
    destruct (erase_remove_if (hash_is soundHash) (sounds (player x)))
      as [v'|] eqn:Ev; simpl in E; [|discriminate].
    inversion E; subst; simpl. destruct Hc as [H1 H2]. split; simpl.
    + intros Hi. rewrite (H1 Hi) in Ef. discriminate.
    + eapply erase_remove_if_typed; eassumption.
  - inversion E; subst. exact Hc.
Qed.

Lemma textToSpeech_keeps text handle r newHandle x a x' :
  textToSpeech text handle r newHandle x = Ret a x' ->
  consistent (player x) -> consistent (player x').
Proof.
  intros E Hc.
  unfold textToSpeech, on_player, call, bind, ret, gets, modify in E.
  simpl in E. destruct (mInited (player x)) eqn:Hi; simpl in E.
  - destruct Hc as [_ H2].
    destruct (r =? SO_NO_ERROR); simpl in E; inversion E; subst;
      (split; simpl; [rewrite Hi; discriminate|]);
      apply Forall_app; (split; [exact H2 | repeat constructor]).
  - inversion E; subst. exact Hc.
Qed.

Lemma play3d_keeps soundHash aPosX aPosY aPosZ aVelX aVelY aVelZ aVolume
    aPaused aBus newHandle x a x' :
  play3d soundHash aPosX aPosY aPosZ aVelX aVelY aVelZ aVolume aPaused aBus
    newHandle x = Ret a x' ->
  consistent (player x) -> consistent (player x').
Proof.
  intros E Hc.
  unfold play3d, on_player, find_sound, call, bind, ret, gets, modify, defined
    in E.
  destruct (find_if (hash_is soundHash) (sounds (player x)))
    as [[i f|]|] eqn:Ef; simpl in E; try discriminate.
  - destruct (sound f); simpl in E; [|discriminate].
    inversion E; subst; simpl.
    apply consistent_insert; [exact Hc|].
    apply find_if_It_inv in Ef. destruct Ef as [Ef _].
    exact (typed_at _ _ _ Hc Ef).
  - inversion E; subst. exact Hc.
Qed.

Lemma getLength_keeps soundHash len x a x' :
  getLength soundHash len x = Ret a x' -> player x' = player x.
Proof.
  intros E.
  unfold getLength, on_player, find_sound, call, bind, ret, gets, modify,
    defined in E.
  destruct (find_if (hash_is soundHash) (sounds (player x)))
    as [[i f|]|]; simpl in E; try discriminate.
  - destruct (soundType f); simpl in E.
    + destruct (sound f) as [[|b]|]; simpl in E; try discriminate.
      inversion E; subst. reflexivity.
    + inversion E; subst. reflexivity.
  - inversion E; subst. reflexivity.
Qed.

Lemma seek_keeps h time r x a x' :
  seek h time r x = Ret a x' -> player x' = player x.
Proof.
  intros E. unfold seek, on_player, call, bind, ret, gets, modify in E.
  simpl in E. destruct (mInited (player x)); simpl in E;
    inversion E; subst; reflexivity.
Qed.

Lemma serve_keeps q x x' :
  serve q x = Ret tt x' -> consistent (player x) -> consistent (player x').
Proof.
  destruct q; simpl; intros E Hc.
  - eapply (on_player_keeps _ (ignore_keeps _ (init_keeps _))); eassumption.
  - unfold on_player, dispose, Player.call, bind, modify in E.
    inversion E; subst. simpl. apply consistent_nil.
  - eapply (on_player_keeps _ (ignore_keeps _ (loadFile_keeps _ _ _)));
      eassumption.
  - eapply (on_player_keeps _ (ignore_keeps _ (loadFromMemory_keeps _ _ _ _)));
      eassumption.
  - eapply (on_player_keeps _
              (ignore_keeps _ (loadWaveform_keeps _ _ _ _ _ _)));
      eassumption.
  - eapply (on_player_keeps _ (set_synth_keeps _ _)); eassumption.
  - eapply (on_player_keeps _ (set_synth_keeps _ _)); eassumption.
  - eapply (on_player_keeps _ (set_synth_keeps _ _)); eassumption.
  - eapply (on_player_keeps _ (set_synth_keeps _ _)); eassumption.
  - eapply (on_player_keeps _ (set_synth_keeps _ _)); eassumption.
  - unfold on_player, setRelativePlaySpeed, Player.call, modify in E.
    inversion E; subst. exact Hc.
  - eapply (on_player_keeps _ (ignore_keeps _ (play_keeps _ _ _ _ _)));
      eassumption.
  - unfold ignore, bind, ret in E.
    destruct (play3d _ _ _ _ _ _ _ _ _ _ _ x) as [a x1|] eqn:Ep;
      [|discriminate].
    inversion E; subst. eapply play3d_keeps; eassumption.
  - eapply (on_player_keeps _ (stop_keeps _)); eassumption.
  - eapply disposeSound_keeps; eassumption.
  - unfold on_player, disposeAllSound, Player.call, bind, modify in E.
    inversion E; subst. simpl. apply consistent_nil.
  - unfold ignore, bind, ret in E.
    destruct (textToSpeech _ _ _ _ x) as [a x1|] eqn:Ep; [|discriminate].
    inversion E; subst. eapply textToSpeech_keeps; eassumption.
  - unfold ignore, bind, ret in E.
    destruct (getLength _ _ x) as [a x1|] eqn:Ep; [|discriminate].
    inversion E; subst. rewrite (getLength_keeps _ _ _ _ _ Ep). exact Hc.
  - unfold ignore, bind, ret in E.
    destruct (seek _ _ _ x) as [a x1|] eqn:Ep; [|discriminate].
    inversion E; subst. rewrite (seek_keeps _ _ _ _ _ _ Ep). exact Hc.
  - unfold set3dListenerAt, call, modify in E. inversion E; subst. exact Hc.
  - unfold set3dListenerUp, call, modify in E. inversion E; subst. exact Hc.
Qed.

Lemma serve_all_keeps qs : forall x x',
  serve_all qs x = Ret tt x' ->
  consistent (player x) -> consistent (player x').
Proof.
  induction qs as [|q qs IH]; intros x x' E Hc; simpl in E.
  - inversion E; subst. exact Hc.
  - unfold bind in E. destruct (serve q x) as [[] x1|] eqn:Eq; [|discriminate].
    eapply IH; [exact E|]. eapply serve_keeps; eassumption.
Qed.

(** Whatever requests a program made since it built its [Player], and
    whatever the engine answered: while the player is not initialized
    its registry is empty, so that [getSoundsCount] is 0. *)
Theorem uninitialized_registry_is_empty qs x :
  serve_all qs start = Ret tt x ->
  mInited (player x) = false ->
  sounds (player x) = [] /\ getSoundsCount (player x) = Ret 0 (player x).
Proof.
  intros E Hi.
  destruct (serve_all_keeps qs start x E (consistent_nil _ _)) as [H1 _].
  unfold getSoundsCount, bind, ret, gets. rewrite (H1 Hi). auto.
Qed.

(** Whatever requests a program made since it built its [Player]: the
    [soundType] of every sound names the class of its object, so a
    waveform setter never casts a [SoLoud::Wav] to [Basicwave]; it
    returns whenever the lookup finds a sound whose object is there. *)
Theorem soundType_names_the_object qs x :
  serve_all qs start = Ret tt x ->
  Forall typed (sounds (player x))
  /\ forall soundHash set i f,
       find_if (hash_is soundHash) (sounds (player x)) = Some (It i f) ->
       sound f <> None ->
       exists p', set_synth soundHash set (player x) = Ret tt p'.
Proof.
  intros E.
  pose proof (serve_all_keeps qs start x E (consistent_nil _ _)) as Hc.
  split; [exact (proj2 Hc)|].
  intros soundHash set i f Ef Hs.
  destruct (find_if_It_inv _ _ _ _ Ef) as [Hi _].
  pose proof (typed_at _ _ _ Hc Hi) as Ht. simpl in Ht.
  unfold set_synth, find_sound, bind, ret, gets, modify, defined.
  rewrite Ef. simpl.
  destruct (sound f) as [[|b]|]; [| |contradiction].
  - rewrite Ht. eexists; reflexivity.
  - rewrite Ht. eexists; reflexivity.
Qed.

End Keeping.

(** ** Calls the player never makes *)

Lemma keeps_log_bind {A B} P (m : M Traced A) (k : A -> M Traced B) :
  keeps_log P m -> (forall a, keeps_log P (k a)) -> keeps_log P (bind m k).
Proof.
  intros Hm Hk x b x' E Hx. unfold bind in E.
  destruct (m x) as [a x1|] eqn:Em; [|discriminate].
  eapply Hk; [exact E|]. eapply Hm; eassumption.
Qed.

Lemma keeps_log_ret {A} P (a : A) : keeps_log P (ret a).
Proof. intros x b x' E Hx. inversion E; subst. exact Hx. Qed.

Lemma keeps_log_defined {A} P (o : option A) : keeps_log P (defined o).
Proof.
  intros x b x' E Hx. unfold defined in E. destruct o; [|discriminate].
  inversion E; subst. exact Hx.
Qed.

Lemma keeps_log_on_player {A} P (m : M Player A) : keeps_log P (on_player m).
Proof.
  intros x b x' E Hx. unfold on_player in E.
  destruct (m (player x)); [|discriminate]. inversion E; subst. exact Hx.
Qed.

Lemma keeps_log_call P c : (forall n, P (n, c)) -> keeps_log P (call c).
Proof.
  intros Hc x b x' E Hx. unfold call, modify in E. inversion E; subst. simpl.
  apply Forall_app; split; [exact Hx | repeat constructor; apply Hc].
Qed.

Ltac keeps_log :=
  repeat first
    [ apply keeps_log_ret
    | apply keeps_log_defined
    | apply keeps_log_on_player
    | apply keeps_log_call; intros ?; reflexivity
    | apply keeps_log_bind; [|intros ?]
    | match goal with
      | |- keeps_log _ (match ?t with _ => _ end) => destruct t
      end ].

Section NeverUp.
Context `{Headers} `{ActiveSoundDefaults}.

Lemma serve_never_sets_up q :
  keeps_log (fun e => sets_up e = false) (serve q).
Proof.
  destruct q; simpl;
    unfold ignore, disposeSound, textToSpeech, play3d, getLength, seek,
      set3dListenerAt, set3dListenerUp;
    keeps_log.
Qed.

Lemma serve_all_never_sets_up qs :
  keeps_log (fun e => sets_up e = false) (serve_all qs).
Proof.
  induction qs as [|q qs IH]; simpl.
  - apply keeps_log_ret.
  - apply keeps_log_bind; [apply serve_never_sets_up | intros _; exact IH].
Qed.

(** [soloud.set3dListenerUp] is never called.  [set3dListenerUp] makes
    the engine call that [set3dListenerAt] makes, with its own
    arguments, so the vector it is given becomes the listener's at
    vector; and whatever requests served by [serve] a program made since
    it built its [Player], no call of [soloud.set3dListenerUp] is in the
    log. *)
Theorem listener_up_is_never_set qs x :
  serve_all qs start = Ret tt x ->
  Forall (fun e => sets_up e = false) (further x)
  /\ forall aUpX aUpY aUpZ,
       set3dListenerUp aUpX aUpY aUpZ x = set3dListenerAt aUpX aUpY aUpZ x
       /\ set3dListenerUp aUpX aUpY aUpZ x
          = Ret tt (mkTraced (player x)
                      (further x ++ [(length (soloud (player x)),
                                      soloud_set3dListenerAt aUpX aUpY aUpZ)])).
Proof.
  intros E. split.
  - eapply serve_all_never_sets_up; [exact E | constructor].
  - intros aUpX aUpY aUpZ. split; reflexivity.
Qed.

(** ** After [dispose] *)

(** A player that was disposed of can still be called: [dispose] always
    returns and leaves an empty registry and a player that is not
    initialized; on it [play] returns 0 for every hash, [stop] and the
    waveform setters do nothing, and [loadFile] is refused. *)
Theorem after_dispose p :
  exists p',
    dispose p = Ret tt p'
    /\ mInited p' = false
    /\ sounds p' = []
    /\ soloud p' = soloud p ++ [soloud_deinit]
    /\ (forall soundHash volume pan paused newHandle,
          play soundHash volume pan paused newHandle p' = Ret 0 p')
    /\ (forall h, stop h p' = Ret tt p')
    /\ (forall soundHash set, set_synth soundHash set p' = Ret tt p')
    /\ (forall name hash r,
          loadFile name hash r p' = Ret (backendNotInited, hash) p').
Proof.
  eexists. split; [reflexivity|]. simpl. repeat split.
Qed.

(** ** The identity of memory-loaded sounds *)

(** The identity under which [loadFromMemory] stores its sound is the
    hash of a path: a file loaded from the path "memory-mapped-sample"
    takes it, and every [loadFromMemory] afterwards is refused with
    [fileAlreadyLoaded], whatever the buffer. *)
Theorem memory_identity_is_a_path hash r p :
  mInited p = true ->
  find_if (hash_is memory_hash) (sounds p) = Some End ->
  exists p1,
    loadFile "memory-mapped-sample" hash r p = Ret (r, memory_hash) p1
    /\ forall buffer hash' len r',
         loadFromMemory buffer hash' len r' p1
         = Ret (fileAlreadyLoaded, memory_hash) p1.
Proof.
  intros Hi Ef. eexists. split; [apply (loadFile_fresh _ _ _ _ Hi Ef)|].
  intros buffer hash' len r'.
  eapply loadFromMemory_found; [exact Hi|].
  apply find_if_pushed. exact Ef.
Qed.

End NeverUp.

(** ** The laws on concrete inputs *)

Lemma listener_up_is_never_set_witness :
  @serve_all example_headers example_defaults
    [do_set3dListenerUp (S754_zero false) (S754_zero false)
       (S754_infinity false)] start
  = Ret tt (mkTraced new
              [(0%nat, soloud_set3dListenerAt (S754_zero false)
                         (S754_zero false) (S754_infinity false))])
  /\ Forall (fun e => sets_up e = false)
       [(0%nat, soloud_set3dListenerAt (S754_zero false) (S754_zero false)
                  (S754_infinity false))].
Proof.
  split; [reflexivity|].
  exact (proj1 (@listener_up_is_never_set example_headers example_defaults
                  [do_set3dListenerUp (S754_zero false) (S754_zero false)
                     (S754_infinity false)]
                  _ eq_refl)).
Defined.

Lemma memory_identity_is_a_path_witness :
  mInited example_player = true
  /\ exists p1,
       @loadFile example_headers "memory-mapped-sample" 0 0 example_player
       = Ret (0, 20) p1
       /\ @loadFromMemory example_headers [S754_nan] 0 1 0 p1
          = Ret (4, 20) p1.
Proof.
  split; [reflexivity|].
  destruct (@memory_identity_is_a_path example_headers 0 0 example_player
              eq_refl eq_refl) as (p1 & Hl & Hm).
  exists p1. split; [exact Hl | exact (Hm [S754_nan] 0 1 0)].
Defined.


Lemma play_reaches_first_match_witness :
  [Some example_sound; Some example_synth; None] !! 1%nat
  = Some (Some example_synth)
  /\ Forall (fun o => exists g, o = Some g /\ soundHash g <> 7)
       [Some example_sound]
  /\ play 7 (S754_zero false) (S754_zero false) false 9
       (mkPlayer true [Some example_sound; Some example_synth; None] [])
     = Ret 9 (mkPlayer true
                [Some example_sound; Some (add_handle 9 example_synth); None]
                [soloud_play
                   (Synth (mkBasicwave 0 false (S754_zero false)
                             (S754_zero false) (S754_zero false)))
                   (S754_zero false) (S754_zero false) false 0]).
Proof.
  assert (Hb : Forall (fun o => exists g, o = Some g /\ soundHash g <> 7)
                 [Some example_sound]).
  { repeat constructor. exists example_sound. split; [reflexivity|].
    discriminate. }
  split; [reflexivity|]. split; [exact Hb|].
  exact (play_reaches_first_match 7 (S754_zero false) (S754_zero false) false
           9 (mkPlayer true [Some example_sound; Some example_synth; None] [])
           1 example_synth _ eq_refl eq_refl eq_refl Hb).
Defined.

Lemma uninitialized_player_refuses_witness :
  mInited (player start) = false
  /\ @loadFile example_headers "a.wav" 3 0 (player start)
     = Ret (9, 3) (player start)
  /\ @seek example_headers 1 (S754_zero false) 0 start = Ret 9 start.
Proof.
  split; [reflexivity|].
  pose proof (@uninitialized_player_refuses example_headers example_defaults
                start eq_refl) as (Hl & _ & _ & _ & Hs).
  split; [exact (Hl "a.wav" 3 0) | exact (Hs 1 (S754_zero false) 0)].
Defined.

Lemma loadWaveform_appends_witness :
  mInited example_loaded = true
  /\ exists p',
       @loadWaveform example_headers 0 false (S754_zero false)
         (S754_zero false) 0 7 example_loaded = Ret (0, 7) p'
       /\ sounds p' = [Some example_sound; Some example_synth].
Proof.
  split; [reflexivity|].
  destruct (@loadWaveform_appends example_headers 0 false (S754_zero false)
              (S754_zero false) 0 7 example_loaded eq_refl)
    as (p' & Hl & Hv & _).
  exists p'. split; [exact Hl | exact Hv].
Defined.


Lemma failed_load_stays_playable_witness :
  mInited example_player = true
  /\ 2 <> @SO_NO_ERROR example_headers
  /\ exists p1 p2,
       @loadFile example_headers "missing.wav" 0 2 example_player
       = Ret (2, 11) p1
       /\ play 11 (S754_zero false) (S754_zero false) false 9 p1 = Ret 9 p2
       /\ sounds p2
          = [Some (add_handle 9 (new_wav "missing.wav" 11)); None].
Proof.
  split; [reflexivity|]. split; [discriminate|].
  destruct (@failed_load_stays_playable example_headers "missing.wav" 0 2
              (S754_zero false) (S754_zero false) false 9 example_player
              eq_refl ltac:(discriminate) eq_refl)
    as (p1 & p2 & Hl & Hp & Hv & _).
  exists p1, p2. split; [exact Hl|]. split; [exact Hp | exact Hv].
Defined.

Lemma disposeSound_removes_witness :
  full (sounds (player example_holding))
  /\ count_hash 5 (sounds (player example_holding)) = 1%nat
  /\ disposeSound 5 example_holding
     = Ret tt (mkTraced (mkPlayer true [] [soloud_init; Wav_load "a.wav"])
                 [(2%nat, AudioSource_stop Wav)]).
Proof.
  assert (Hf : full (sounds (player example_holding)))
    by (repeat constructor; discriminate).
  split; [exact Hf|]. split; [reflexivity|].
  exact (proj1 (disposeSound_removes 5 example_holding 0 example_sound Wav
                  eq_refl eq_refl Hf eq_refl)).
Defined.

Lemma loadFile_then_disposeSound_witness :
  mInited (player example_empty) = true
  /\ exists x1 x2,
       on_player (@loadFile example_headers "a.wav" 0 0) example_empty
       = Ret (0, 5) x1
       /\ disposeSound 5 x1 = Ret tt x2
       /\ sounds (player x2) = [].
Proof.
  split; [reflexivity|].
  destruct (@loadFile_then_disposeSound example_headers "a.wav" 0 0
              example_empty eq_refl eq_refl eq_refl)
    as (x1 & x2 & Hl & Hd & Hv & _).
  exists x1, x2. split; [exact Hl|]. split; [exact Hd | exact Hv].
Defined.

Lemma failed_load_blocks_disposeSound_witness :
  mInited (player example_empty) = true
  /\ 2 <> @SO_NO_ERROR example_headers
  /\ exists x1,
       on_player (@loadFile example_headers "missing.wav" 0 2) example_empty
       = Ret (2, 11) x1
       /\ disposeSound 11 x1 = Undefined.
Proof.
  split; [reflexivity|]. split; [discriminate|].
  destruct (@failed_load_blocks_disposeSound example_headers "missing.wav" 0 2
              example_empty eq_refl ltac:(discriminate) eq_refl)
    as (x1 & Hl & Hd & _).
  exists x1. split; [exact Hl | exact (Hd 11)].
Defined.

Lemma textToSpeech_grows_registry_witness :
  mInited (player example_holding) = true
  /\ exists x',
       @textToSpeech example_headers example_defaults "hello" 0 3 9
         example_holding = Ret (3, 0) x'
       /\ sounds (player x')
          = [Some example_sound; Some (@new_speech example_defaults []); None].
Proof.
  split; [reflexivity|].
  destruct (@textToSpeech_grows_registry example_headers example_defaults
              "hello" 0 3 9 example_holding eq_refl)
    as (x' & Ht & Hv & _).
  exists x'. split; [exact Ht | exact Hv].
Defined.



Lemma uninitialized_registry_is_empty_witness :
  @serve_all example_headers example_defaults example_requests start
  = Ret tt (mkTraced
              (mkPlayer false []
                 [soloud_init; Wav_load "a.wav";
                  soloud_play Wav (S754_zero false) (S754_zero false) false 0;
                  soloud_stop 9; soloud_deinit]) [])
  /\ sounds (mkPlayer false []
               [soloud_init; Wav_load "a.wav";
                soloud_play Wav (S754_zero false) (S754_zero false) false 0;
                soloud_stop 9; soloud_deinit]) = [].
Proof.
  split; [reflexivity|].
  exact (proj1 (@uninitialized_registry_is_empty example_headers
                  example_defaults example_requests _ eq_refl eq_refl)).
Defined.

Lemma soundType_names_the_object_witness :
  @serve_all example_headers example_defaults
    [do_init 0; do_loadWaveform 0 false (S754_zero false) (S754_zero false) 0 7]
    start
  = Ret tt (mkTraced (mkPlayer true [Some example_synth] [soloud_init]) [])
  /\ Forall typed [Some example_synth].
Proof.
  split; [reflexivity|].
  exact (proj1 (@soundType_names_the_object example_headers example_defaults
                  [do_init 0;
                   do_loadWaveform 0 false (S754_zero false) (S754_zero false)
                     0 7]
                  (mkTraced (mkPlayer true [Some example_synth] [soloud_init])
                     [])
                  eq_refl)).
Defined.

End PlayerLaws.

(** * How the operations of the capture relay compose *)

Module CaptureLaws.
Import Capture CaptureFacts CaptureExt.

(** ** The callback and the buffer *)

Lemma read_length src n block :
  0 <= n -> read src n = Some block -> Z.of_nat (length block) = n.
Proof.
  unfold read. intros Hn E.
  destruct (Z.leb_spec n (Z.of_nat (length src))); [|discriminate].
  inversion E; subst. rewrite length_take. lia.
Qed.

(** What an invocation that returns tells about the state before it and
    leaves behind: the block had room at [CAPTURE_BUFFER_SIZE *
    currentFrame], and the buffer keeps its capacity. *)
Lemma data_callback_returned f frameCount c c1 big :
  data_callback f frameCount c = Ret tt c1 ->
  bigBuffer c = Some big ->
  0 <= currentFrame c
  /\ CAPTURE_BUFFER_SIZE * (currentFrame c + 1) <= Z.of_nat (length big)
  /\ currentFrame c1 = currentFrame c + 1
  /\ exists big1, bigBuffer c1 = Some big1 /\ length big1 = length big.
Proof.
  intros E Hb.
  unfold data_callback, bind, gets, modify, defined in E.
  destruct (read f CAPTURE_BUFFER_SIZE) as [block|] eqn:Er; [|discriminate].
  apply read_length in Er; [|unfold CAPTURE_BUFFER_SIZE; lia].
  cbn [bigBuffer set_capturedBuffer currentFrame] in E. rewrite Hb in E.
  change (currentFrame (set_capturedBuffer block c)) with (currentFrame c)
    in E.
  destruct (int_op (CAPTURE_BUFFER_SIZE * currentFrame c)) as [off|] eqn:Eo;
    [|discriminate].
  unfold int_op in Eo.
  destruct (_ && _) in Eo; inversion Eo; subst; clear Eo.
  destruct (write big (CAPTURE_BUFFER_SIZE * currentFrame c) block)
    as [big1|] eqn:Ew; [|discriminate].
  destruct (int_op (currentFrame c + 1)) as [n'|] eqn:En; [|discriminate].
  unfold int_op in En.
  destruct (_ && _) in En; inversion En; subst; clear En.
  inversion E; subst; clear E. cbn.
  unfold write in Ew.
  destruct (Z.leb_spec 0 (CAPTURE_BUFFER_SIZE * currentFrame c));
    simpl in Ew; [|discriminate].
  destruct (Z.leb_spec (CAPTURE_BUFFER_SIZE * currentFrame c
                        + Z.of_nat (length block)) (Z.of_nat (length big)));
    simpl in Ew; [|discriminate].
  inversion Ew; subst; clear Ew. unfold CAPTURE_BUFFER_SIZE in *.
  repeat split; try lia.
  eexists; split; [reflexivity|].
  rewrite !length_app, length_take, length_drop. lia.
Qed.

(** The callback checks no bound.  Called before a buffer was handed
    over it does not return; and a run of invocations returns only when
    all its blocks have room behind the frame counter: with one block
    too many for the buffer the whole run is undefined. *)
Theorem deliver_is_unchecked frames : forall c,
  (bigBuffer c = None -> frames <> [] -> deliver frames c = Undefined)
  /\ (forall big,
       bigBuffer c = Some big ->
       CAPTURE_BUFFER_SIZE * currentFrame c <= Z.of_nat (length big) ->
       Z.of_nat (length big)
       < CAPTURE_BUFFER_SIZE * (currentFrame c + Z.of_nat (length frames)) ->
       deliver frames c = Undefined).
Proof.
  induction frames as [|f frames IH]; intros c; split.
  - intros _ Hn. destruct (Hn eq_refl).
  - intros big Hb H0 Hlt. unfold CAPTURE_BUFFER_SIZE in *. simpl in Hlt. lia.
  - intros Hb _. cbn [deliver]. unfold bind at 1.
    unfold data_callback, bind, gets, modify, defined.
    destruct (read f CAPTURE_BUFFER_SIZE); [|reflexivity].
    cbn [bigBuffer set_capturedBuffer]. rewrite Hb. reflexivity.
  - intros big Hb H0 Hlt. cbn [deliver]. unfold bind at 1.
    destruct (data_callback f CAPTURE_BUFFER_SIZE c) as [[] c1|] eqn:E;
      [|reflexivity].
    destruct (data_callback_returned _ _ _ _ _ E Hb)
      as (Hc0 & Hroom & Hn & big1 & Hb1 & Hl1).
    apply (proj2 (IH c1) big1 Hb1).
    + rewrite Hn, Hl1. exact Hroom.
    + rewrite Hn, Hl1. cbn [length] in Hlt.
      unfold CAPTURE_BUFFER_SIZE in *. lia.
Qed.

(** ** Initializing, starting and stopping *)



(** A start that fails leaves the capture initialized although it has
    let go of the device: [startCapture] answers
    [failed_to_start_device] after [ma_device_uninit], [isInited] is
    still true, a new [init] is refused, and [stopCapture] succeeds by
    calling [ma_device_uninit] a second time. *)
Theorem failed_start_stays_initialized code deviceID bufferFromDart r c :
  mInited c = true ->
  exists c1 c2,
    startCapture (MA_ERROR code) c = Ret failed_to_start_device c1
    /\ device c1 = device c ++ [ma_device_start; ma_device_uninit]
    /\ isInited c1 = Ret true c1
    /\ init deviceID bufferFromDart r c1 = Ret capture_init_failed c1
    /\ stopCapture c1 = Ret capture_noError c2
    /\ device c2
       = device c ++ [ma_device_start; ma_device_uninit; ma_device_uninit]
    /\ mInited c2 = false.
Proof.
  intros Hi.
  unfold startCapture, stopCapture, init, isInited, call, bind, ret, gets,
    modify.
  rewrite Hi. simpl. rewrite Hi. simpl.
  eexists _, _. repeat split; simpl; rewrite <- ?app_assoc; reflexivity.
Qed.

(** ** Listing the devices *)

Lemma collect_eq n : forall i infos ret,
  (i <= length infos)%nat ->
  collect n i infos ret
  = if (i + n <=? length infos)%nat
    then Some (ret ++ List.map device_of (take n (drop i infos)))
    else None.
Proof.
  induction n as [|n IH]; intros i infos ret Hi; simpl.
  - rewrite Nat.add_0_r. destruct (Nat.leb_spec i (length infos)); [|lia].
    rewrite app_nil_r. reflexivity.
  - destruct (infos !! i) as [info|] eqn:Ei.
    + pose proof (lookup_lt_Some _ _ _ Ei) as Hlt.
      rewrite IH by lia.
      replace (S i + n)%nat with (i + S n)%nat by lia.
      destruct (Nat.leb_spec (i + S n) (length infos)); [|reflexivity].
      rewrite (drop_S _ _ _ Ei). simpl. rewrite <- app_assoc. reflexivity.
    + apply lookup_ge_None in Ei.
      destruct (Nat.leb_spec (i + S n) (length infos)); [lia | reflexivity].
Qed.

(** [listCaptureDevices] answers an empty list when the device layer
    fails.  Otherwise it makes one entry per playback device, but reads
    the entries from the capture devices: with at most as many playback
    as capture devices it lists the first capture devices, as many as
    there are playback devices, in order, all of them when the numbers
    are equal; with more playback than capture devices it reads behind
    the array of capture devices and does not return. *)
Theorem listCaptureDevices_counts_playback_devices playback capture x :
  (forall code r_devices,
     exists x', listCaptureDevices (MA_ERROR code) r_devices playback capture x
                = Ret [] x')
  /\ (forall code,
       exists x', listCaptureDevices MA_SUCCESS (MA_ERROR code) playback
                    capture x = Ret [] x')
  /\ ((length playback <= length capture)%nat ->
      exists x',
        listCaptureDevices MA_SUCCESS MA_SUCCESS playback capture x
        = Ret (List.map device_of (take (length playback) capture)) x')
  /\ (length playback = length capture ->
      exists x',
        listCaptureDevices MA_SUCCESS MA_SUCCESS playback capture x
        = Ret (List.map device_of capture) x')
  /\ ((length capture < length playback)%nat ->
      listCaptureDevices MA_SUCCESS MA_SUCCESS playback capture x
      = Undefined).
Proof.
  unfold listCaptureDevices, CaptureExt.call, set_infos, bind, ret, gets,
    modify, defined.
  cbn [pPlaybackInfos pCaptureInfos].
  rewrite collect_eq by lia. rewrite drop_0. cbn [app Nat.add].
  repeat split.
  - intros code r_devices. eexists; reflexivity.
  - intros code. eexists; reflexivity.
  - intros Hle. rewrite (proj2 (Nat.leb_le _ _) Hle).
    eexists; reflexivity.
  - intros Heq. rewrite Heq, Nat.leb_refl, take_ge by lia.
    eexists; reflexivity.
  - intros Hlt. rewrite (proj2 (Nat.leb_gt _ _) Hlt). reflexivity.
Qed.

(** ** The laws on concrete inputs *)



Lemma failed_start_stays_initialized_witness :
  mInited example_capture = true
  /\ exists c1 c2,
       startCapture (MA_ERROR (-1)) example_capture
       = Ret failed_to_start_device c1
       /\ isInited c1 = Ret true c1
       /\ stopCapture c1 = Ret capture_noError c2
       /\ device c2
          = [ma_device_init (mk_config 256 None 1 44100); ma_device_start;
             ma_device_uninit; ma_device_uninit].
Proof.
  split; [reflexivity|].
  destruct (failed_start_stays_initialized (-1) (-1) None MA_SUCCESS
              example_capture eq_refl)
    as (c1 & c2 & Hs & _ & Hi & _ & Ht & Hd & _).
  exists c1, c2. split; [exact Hs|]. split; [exact Hi|].
  split; [exact Ht | exact Hd].
Defined.

Lemma deliver_is_unchecked_witness :
  deliver [example_frame1] new = Undefined
  /\ deliver [example_frame1; example_frame2; example_frame1] example_capture
     = Undefined.
Proof.
  split.
  - apply (proj1 (deliver_is_unchecked [example_frame1] new));
      [reflexivity | discriminate].
  - apply (proj2 (deliver_is_unchecked
                    [example_frame1; example_frame2; example_frame1]
                    example_capture)
             (replicate 600 (S754_zero false)));
      [reflexivity | vm_compute; discriminate | vm_compute; reflexivity].
Defined.

Lemma listCaptureDevices_counts_playback_devices_witness :
  (exists x',
     listCaptureDevices MA_SUCCESS MA_SUCCESS
       [mk_info "speaker" 1]
       [mk_info "microphone" 1; mk_info "line in" 0]
       (mkContext [] [] MA_SUCCESS [])
     = Ret [mk_device "microphone" 1] x')
  /\ listCaptureDevices MA_SUCCESS MA_SUCCESS
       [mk_info "speaker" 1; mk_info "headset" 0] [mk_info "microphone" 1]
       (mkContext [] [] MA_SUCCESS [])
     = Undefined.
Proof.
  split.
  - apply (proj1 (proj2 (proj2
             (listCaptureDevices_counts_playback_devices
                [mk_info "speaker" 1]
                [mk_info "microphone" 1; mk_info "line in" 0]
                (mkContext [] [] MA_SUCCESS []))))).
    simpl. apply le_S, le_n.
  - apply (proj2 (proj2 (proj2 (proj2
             (listCaptureDevices_counts_playback_devices
                [mk_info "speaker" 1; mk_info "headset" 0]
                [mk_info "microphone" 1]
                (mkContext [] [] MA_SUCCESS [])))))).
    simpl. apply le_n.
Defined.

End CaptureLaws.
